(** * govanityurls: the reloadable vanity-import mapping of [main.go]

    A shallow embedding of [main.go]: the package-level map [m], the
    reload path ([readFile], [loadHTTPFile], [loadDiskFile], [loadYaml]),
    the request handler ([handle]) and the goroutines started by [main]
    ([refreshWhenSig], [refreshYaml]).  Library calls (yaml.v2, net/http,
    html/template, io/ioutil, sync) are represented by what they do to the
    values [main.go] hands them. *)

From Stdlib Require Import ZArith String Ascii Strings.Byte List Bool Lia.
From stdpp Require Import base option list gmap strings fin_maps.

Local Open Scope string_scope.
Local Open Scope list_scope.

(** ** Strings ([strings.HasPrefix], [strings.Contains]) *)

Module strings.

(** [strings.HasPrefix(s, prefix)]. *)
Definition HasPrefix (s prefix : string) : bool := String.prefix prefix s.

(** [strings.Contains(s, substr)]: [substr] starts at some offset of [s]
    (the empty [substr] is contained in every string). *)
Fixpoint Contains (s substr : string) : bool :=
  HasPrefix s substr ||
  match s with
  | EmptyString => false
  | String _ s' => Contains s' substr
  end.

End strings.

(** ** Data model *)

(** The anonymous struct that is the element type of [m]. *)
Record Entry : Type := mkEntry {
  Repo : string;     (* `yaml:"repo,omitempty"` *)
  Display : string;  (* `yaml:"display,omitempty"` *)
}.

#[global] Instance Entry_eq_dec : EqDecision Entry.
Proof. solve_decision. Defined.

(** The zero value of the struct. *)
Definition zeroEntry : Entry := mkEntry "" "".

(** [var m map[string]struct{...}]: a Go map variable is either [nil]
    ([None]) or refers to a map. *)
Abbreviation Mapping := (gmap string Entry).
Abbreviation Store := (option (gmap string Entry)).

(** [p, ok := m[current]]: indexing a nil map finds nothing. *)
Definition index (m : Store) (k : string) : option Entry :=
  match m with
  | None => None
  | Some mp => mp !! k
  end.

(** The keys of [m] with their values, as [range m] visits them. *)
Definition entries (m : Store) : list (string * Entry) :=
  match m with
  | None => []
  | Some mp => map_to_list mp
  end.

Abbreviation bytes := (list Byte.byte).

(** Go [error] values that reach [loadYaml]'s caller, named by the call
    that produced them. *)
Inductive error : Type :=
| ErrNewRequest        (* http.NewRequestWithContext *)
| ErrDo                (* http.DefaultClient.Do *)
| ErrStatus (code : Z) (* fmt.Errorf("response status code %d", ...) *)
| ErrReadAll           (* ioutil.ReadAll *)
| ErrReadFile          (* ioutil.ReadFile *)
| ErrYamlSyntax        (* yaml.Unmarshal: the parser rejects the bytes; the
                          decoder has not been given the target *)
| ErrYamlDecode.       (* yaml.Unmarshal, once the decoder has the target: the
                          *yaml.TypeError it returns at the end, or a failure
                          it raises on the way *)

(** A call either returns or panics (an unrecovered panic in any goroutine
    ends the process). *)
Inductive outcome (A : Type) : Type :=
| Returns (a : A)
| Panics.
Arguments Returns {A} a.
Arguments Panics {A}.

(** ** yaml.v2 decoding into [&m]

    [yaml.Unmarshal(vanity, &m)] first parses the bytes; a syntax error is
    raised there, before the decoder is given the target.  The decoder is
    non-strict: it never reads the entries already in its target, so what
    it does to the target is fixed by the bytes.  For a target of type
    [map[string]struct{Repo, Display}] that is one of
    - nothing: an empty stream has no node, and a root scalar or sequence
      does not fit the map (a type error);
    - a null root: the target is set to its zero value, the nil map
      (decode.go, [scalar]: [out.Set(reflect.Zero(out.Type()))]);
    - a mapping root: the map is allocated only when the target is nil
      ([mapping]: [if out.IsNil() { out.Set(reflect.MakeMap(outt)) }]), a
      non-nil target is kept with all its entries, and every entry that
      decodes is stored with [out.SetMapIndex(k, v)], in document order.
    Values that do not fit are skipped and reported together at the end in
    a [*yaml.TypeError] ("decoding continues partially until the end of the
    YAML content"); the entries that did decode stay stored.  The decoder
    can also give up on the way (a merge key whose value is a scalar, an
    alias that expands too far): [Unmarshal] then returns that failure, and
    the entries stored until then stay stored as well.  [failed] says that
    [Unmarshal] returns an error of either sort. *)
Inductive yaml_effect : Type :=
| Untouched
| SetNil
| StoreEntries (sets : list (string * Entry)).

Inductive yaml_result : Type :=
| SyntaxError
| Decoded (eff : yaml_effect) (failed : bool).

(** One [out.SetMapIndex(k, v)]. *)
Definition SetMapIndex (mp : Mapping) (kv : string * Entry) : Mapping :=
  <[kv.1 := kv.2]> mp.

Definition MakeIfNil (m : Store) : Mapping :=
  match m with
  | None => ∅
  | Some mp => mp
  end.

Definition apply_effect (eff : yaml_effect) (m : Store) : Store :=
  match eff with
  | Untouched => m
  | SetNil => None
  | StoreEntries sets => Some (foldl SetMapIndex (MakeIfNil m) sets)
  end.

(** The mapping that a list of [SetMapIndex] calls builds in a fresh map:
    the mapping the document describes. *)
Definition document_map (sets : list (string * Entry)) : Mapping :=
  foldl SetMapIndex ∅ sets.

(** ** The world outside the process *)

(** What [http.NewRequestWithContext], [http.DefaultClient.Do] and
    [ioutil.ReadAll(resp.Body)] make of a locator. *)
Inductive http_reply : Type :=
| NewRequestFails
| DoFails
| Response (StatusCode : Z) (body : bytes) (readErr : option error).

(** The anonymous struct [handle] passes to the template. *)
Module data.
Record t : Type := mk {
  Import : string;
  Repo : string;
  Display : string;
}.
End data.

Record World : Type := mkWorld {
  (* ioutil.ReadFile(path): the data and the error *)
  ReadFile : string -> bytes * option error;
  (* the GET of loadHTTPFile *)
  Get : string -> http_reply;
  (* yaml.v2 on the bytes, for the type of m *)
  yaml : bytes -> yaml_result;
  (* html/template on a value printed inside a quoted attribute, and on a
     value printed inside the URL of an href *)
  attrescaper : string -> string;
  urlescaper : string -> string;
  (* the connection of the request being answered: None, the client takes
     all of the response; Some l, the client is gone once l bytes of the
     body have been written *)
  connection : option nat;
}.

(** ** The reload path *)

Section Reload.

(** [var path string], set once from the [-config] flag. *)
Variable path : string.
Variable io : World.

(** [func loadDiskFile() ([]byte, error)] *)
Definition loadDiskFile : outcome (bytes * option error) :=
  let '(vanity, err) := ReadFile io path in
  Returns (vanity, err).

(** [func loadHTTPFile() ([]byte, error)].  After [ioutil.ReadAll] the
    function evaluates [err.Error()] for its log line whatever [err] is;
    on a nil [error] that method call panics.  ([http.DefaultClient.Timeout
    = 30] is thirty nanoseconds; whether [Do] fails is the world's answer.
    Log lines are not part of the embedding.) *)
Definition loadHTTPFile : outcome (bytes * option error) :=
  match Get io path with
  | NewRequestFails => Returns ([], Some ErrNewRequest)
  | DoFails => Returns ([], Some ErrDo)
  | Response StatusCode body readErr =>
      if negb (StatusCode =? 200)%Z then
        Returns ([], Some (ErrStatus StatusCode))
      else
        let '(vanity, err) := (body, readErr) in
        match err with
        | None => Panics                       (* err.Error() on nil *)
        | Some e => Returns (vanity, Some e)
        end
  end.

(** The branch [readFile] takes. *)
Inductive route : Type := ViaHTTP | ViaDisk.

Definition readFile_route : route :=
  if strings.HasPrefix path "http" || strings.HasPrefix path "https"
  then ViaHTTP else ViaDisk.

(** [func readFile() ([]byte, error)] *)
Definition readFile : outcome (bytes * option error) :=
  match readFile_route with
  | ViaHTTP => loadHTTPFile
  | ViaDisk => loadDiskFile
  end.

(** [yaml.Unmarshal(vanity, &m)]: the new value of [m] and the error. *)
Definition Unmarshal (vanity : bytes) (m : Store) : Store * option error :=
  match yaml io vanity with
  | SyntaxError => (m, Some ErrYamlSyntax)
  | Decoded eff failed =>
      (apply_effect eff m, if failed then Some ErrYamlDecode else None)
  end.

(** [fmt.Sprintf("%v %v/tree/master{/dir} %v/blob/master{/dir}/{file}#L{line}", r, r, r)] *)
Definition display_template (r : string) : string :=
  r ++ " " ++ r ++ "/tree/master{/dir} " ++ r ++ "/blob/master{/dir}/{file}#L{line}".

(** The body of [for _, e := range m].  [e] is the loop variable: a copy
    of the map element (the elements are struct values, not pointers).
    The body assigns to the field of that copy and nothing stores the
    copy back, so an iteration returns [m] as it found it, together with
    the final value of the local [e]. *)
Definition range_body (m : Store) (e : Entry) : Store * Entry :=
  if negb (String.eqb (Display e) "") then (m, e)            (* continue *)
  else if strings.Contains (Repo e) "github.com"
  then (m, {| Repo := Repo e; Display := display_template (Repo e) |})
  else (m, e).

(** [for _, e := range m { ... }] *)
Definition range_m (m : Store) : Store :=
  foldl (fun cur kv => (range_body cur kv.2).1) m (entries m).

(** [func loadYaml() error] on the current value of [m]: the value of [m]
    when it returns and the error returned.  [mutex.Lock()] and the
    deferred [mutex.Unlock()] bracket everything after [readFile]; they
    matter only when goroutines interleave (see [load_step] below). *)
Definition loadYaml (m : Store) : outcome (Store * option error) :=
  match readFile with
  | Panics => Panics
  | Returns (vanity, Some err) => Returns (m, Some err)
  | Returns (vanity, None) =>
      match Unmarshal vanity m with
      | (m1, Some err) => Returns (m1, Some err)
      | (m1, None) => Returns (range_m m1, None)
      end
  end.

End Reload.

(** ** The request handler *)

(** [bufferBeforeChunkingSize] of net/http.  The body of a response goes
    through a buffer of this size before anything is handed to the
    connection: a [Write] that leaves the body within it cannot fail. *)
Definition bufferBeforeChunkingSize : nat := 2048.

(** The [http.ResponseWriter] of one request.  (The header fields are
    left out; [handle] sets none itself.) *)
Record ResponseWriter : Type := mkResponse {
  wroteHeader : option Z;   (* the status, once WriteHeader has fixed it *)
  written : list string;    (* the data of the Writes that returned no error *)
  failed : bool;            (* a Write has failed: the writer keeps its error *)
  client : option nat;      (* the [connection] of the request *)
}.

Definition newResponse (c : option nat) : ResponseWriter :=
  mkResponse None [] false c.

(** The bytes of body written so far. *)
Definition sent (w : ResponseWriter) : nat :=
  list_sum (map String.length (written w)).

(** Writing the body up to [n] bytes meets a connection that is gone. *)
Definition gone (c : option nat) (n : nat) : bool :=
  match c with
  | None => false
  | Some l => Nat.ltb (Nat.max bufferBeforeChunkingSize l) n
  end.

(** [w.WriteHeader(code)]: only the first call fixes the status, a later
    one is logged as superfluous and changes nothing. *)
Definition WriteHeader (w : ResponseWriter) (code : Z) : ResponseWriter :=
  match wroteHeader w with
  | Some _ => w
  | None => mkResponse (Some code) (written w) (failed w) (client w)
  end.

(** [w.Write(data)], with [true] for a non-nil error.  "If WriteHeader has
    not yet been called, Write calls WriteHeader(http.StatusOK) before
    writing the data."  Empty data is done with at once; other data goes to
    the buffered writer, which fails when it has failed before or when it
    has to hand data to a connection that is gone. *)
Definition Write (w : ResponseWriter) (d : string) : ResponseWriter * bool :=
  let w1 := WriteHeader w 200 in
  if String.eqb d ""
  then (mkResponse (wroteHeader w1) (written w1 ++ [d]) (failed w1) (client w1), false)
  else if failed w1 then (w1, true)
  else if gone (client w1) (sent w1 + String.length d)
  then (mkResponse (wroteHeader w1) (written w1) true (client w1), true)
  else (mkResponse (wroteHeader w1) (written w1 ++ [d]) false (client w1), false).

(** [http.Error(w, msg, code)]: [w.WriteHeader(code); fmt.Fprintln(w, msg)]. *)
Definition Error (w : ResponseWriter) (msg : string) (code : Z) : ResponseWriter :=
  (Write (WriteHeader w code) (msg ++ String "010" "")).1.

(** [http.NotFound(w, r)] *)
Definition NotFound (w : ResponseWriter) : ResponseWriter :=
  Error w "404 page not found" 404.

(** The status of the response: the server uses 200 when the handler
    returns without having fixed one. *)
Definition status (w : ResponseWriter) : Z := default 200%Z (wroteHeader w).

(** The nodes of a parsed template: text, and actions that print a field
    of the data through the escaper html/template has chosen for the
    place. *)
Inductive Node : Type :=
| TextNode (text : string)
| ActionNode (field : data.t -> string) (escaper : string -> string).

Definition dq : string := String "034" "".
Definition nl : string := String "010" "".

Section Handler.

(** [var host string], set once from the [-host] flag. *)
Variable host : string.
Variable io : World.

(** [var vanityTmpl, _ = template.New("vanity").Parse(...)] *)
Definition vanityTmpl : list Node :=
  [ TextNode ("<!DOCTYPE html>" ++ nl ++
              "<html>" ++ nl ++
              "<head>" ++ nl ++
              "<meta http-equiv=" ++ dq ++ "Content-Type" ++ dq ++
                " content=" ++ dq ++ "text/html; charset=utf-8" ++ dq ++ "/>" ++ nl ++
              "<meta name=" ++ dq ++ "go-import" ++ dq ++ " content=" ++ dq)%string;
    ActionNode data.Import (attrescaper io);
    TextNode " git ";
    ActionNode data.Repo (attrescaper io);
    TextNode (dq ++ ">" ++ nl ++
              "<meta name=" ++ dq ++ "go-source" ++ dq ++ " content=" ++ dq)%string;
    ActionNode data.Import (attrescaper io);
    TextNode " ";
    ActionNode data.Display (attrescaper io);
    TextNode (dq ++ ">" ++ nl ++
              "<meta http-equiv=" ++ dq ++ "refresh" ++ dq ++
                " content=" ++ dq ++ "0; url=https://godoc.org/")%string;
    ActionNode data.Import (attrescaper io);
    TextNode (dq ++ ">" ++ nl ++
              "</head>" ++ nl ++
              "<body>" ++ nl ++
              "Nothing to see here; <a href=" ++ dq ++ "https://godoc.org/")%string;
    ActionNode data.Import (urlescaper io);
    TextNode (dq ++ ">see the package on godoc</a>." ++ nl ++
              "</body>" ++ nl ++
              "</html>")%string ].

(** What a node writes, in one [Write]. *)
Definition output (d : data.t) (n : Node) : string :=
  match n with
  | TextNode text => text
  | ActionNode field escaper => escaper (field d)
  end.

(** The page: what the nodes write, one after the other. *)
Definition page (d : data.t) : list string := map (output d) vanityTmpl.

(** Executing a list of nodes: each writes its output to [w]; "if an error
    occurs executing the template or writing its output, execution
    stops".  The values are strings, which always print, so the only
    errors are those of [w.Write]. *)
Fixpoint walk (w : ResponseWriter) (outputs : list string) : ResponseWriter * bool :=
  match outputs with
  | [] => (w, false)
  | o :: rest =>
      let '(w1, err) := Write w o in
      if err then (w1, true) else walk w1 rest
  end.

(** [vanityTmpl.Execute(w, data)], with [true] for a non-nil error. *)
Definition Execute (w : ResponseWriter) (d : data.t) : ResponseWriter * bool :=
  walk w (page d).

(** [handle] from [if !ok] on, given [p, ok] as read from [m]. *)
Definition respond (current : string) (p : option Entry) : ResponseWriter :=
  let w := newResponse (connection io) in
  match p with
  | None => NotFound w
  | Some p =>
      let '(w, err) :=
        Execute w {| data.Import := host ++ current;
                     data.Repo := Repo p;
                     data.Display := Display p |} in
      if err then Error w "cannot render the page" 500 else w
  end.

(** [func handle(w http.ResponseWriter, r *http.Request)], with [current]
    the value of [r.URL.Path] and [m] the map at the time of the lookup. *)
Definition handle (m : Store) (current : string) : ResponseWriter :=
  respond current (index m current).

End Handler.

(** ** A front end for plain YAML documents

    How the decoder of yaml.v2 walks a document that uses no anchors,
    aliases, merge keys or explicit tags, for the type of [m].  It serves
    to compute the [yaml_result] of the example documents below; the
    theorems hold for every [yaml] function. *)

Module plain.

(** The node tree of the parser.  [null] says that the scalar resolves to
    nil (a plain [~], [null] or empty value). *)
#[local] Unset Elimination Schemes.
Inductive node : Type :=
| scalarNode (value : string) (null : bool)
| mappingNode (children : list (node * node))
| sequenceNode (children : list node).
#[local] Set Elimination Schemes.

Inductive parsed : Type :=
| Rejected               (* syntax error *)
| NoDocument             (* empty stream *)
| Document (root : node).

(** [d.unmarshal(n, out)] for [out] of kind string: the new [out] and
    [good].  A null sets the zero value; any other scalar sets its text. *)
Definition unmarshal_string (n : node) (out : string) : string * bool :=
  match n with
  | scalarNode value null => if null then ("", true) else (value, true)
  | _ => (out, false)
  end.

(** [d.mappingStruct(n, out)] over the children of [n]: keys are matched
    with the field names of the tags, unknown keys are ignored, a value
    that is no scalar is a type error and leaves the field as it was. *)
Fixpoint mappingStruct (children : list (node * node)) (out : Entry) (terrors : bool)
  : Entry * bool :=
  match children with
  | [] => (out, terrors)
  | (ni, nv) :: rest =>
      match unmarshal_string ni "" with
      | (_, false) => mappingStruct rest out true
      | (name, true) =>
          if String.eqb name "repo" then
            let '(s, good) := unmarshal_string nv (Repo out) in
            mappingStruct rest {| Repo := s; Display := Display out |}
                          (terrors || negb good)
          else if String.eqb name "display" then
            let '(s, good) := unmarshal_string nv (Display out) in
            mappingStruct rest {| Repo := Repo out; Display := s |}
                          (terrors || negb good)
          else mappingStruct rest out terrors
      end
  end.

(** [d.unmarshal(n, e)] for [e := reflect.New(et).Elem()], a fresh zero
    struct: the decoded struct when [good], and the type errors. *)
Definition unmarshal_struct (n : node) : option Entry * bool :=
  match n with
  | scalarNode _ null => if null then (Some zeroEntry, false) else (None, true)
  | sequenceNode _ => (None, true)
  | mappingNode children =>
      let '(e, terrors) := mappingStruct children zeroEntry false in
      (Some e, terrors)
  end.

(** [d.mapping(n, out)] over the children of [n], for [out] the map: the
    [SetMapIndex] calls in order, and the type errors. *)
Fixpoint mapping (children : list (node * node)) (terrors : bool)
  : list (string * Entry) * bool :=
  match children with
  | [] => ([], terrors)
  | (nk, nv) :: rest =>
      match unmarshal_string nk "" with
      | (_, false) => mapping rest true
      | (k, true) =>
          match unmarshal_struct nv with
          | (Some e, t) =>
              let '(sets, terrors') := mapping rest (terrors || t) in
              ((k, e) :: sets, terrors')
          | (None, t) => mapping rest (terrors || t)
          end
      end
  end.

(** [yaml.Unmarshal] after parsing. *)
Definition decode (p : parsed) : yaml_result :=
  match p with
  | Rejected => SyntaxError
  | NoDocument => Decoded Untouched false
  | Document (scalarNode _ null) =>
      if null then Decoded SetNil false else Decoded Untouched true
  | Document (sequenceNode _) => Decoded Untouched true
  | Document (mappingNode children) =>
      let '(sets, terrors) := mapping children false in
      Decoded (StoreEntries sets) terrors
  end.

(** A [yaml] function given by the documents it knows. *)
Fixpoint lookup_doc (docs : list (string * parsed)) (text : string) : parsed :=
  match docs with
  | [] => Rejected
  | (t, p) :: rest => if String.eqb t text then p else lookup_doc rest text
  end.

Definition yaml_of (docs : list (string * parsed)) (vanity : bytes) : yaml_result :=
  decode (lookup_doc docs (string_of_list_byte vanity)).

(** [key: value] with plain scalars. *)
Definition pair (k v : string) : node * node :=
  (scalarNode k false, scalarNode v false).

End plain.

(** ** The locator's scheme, as the specification words it

    "If the locator's scheme indicates HTTP or HTTPS": the scheme of a
    locator is the text before its first colon, when it has one. *)

Fixpoint spec_scheme (locator : string) : option string :=
  match locator with
  | EmptyString => None
  | String c rest =>
      if Ascii.eqb c ":" then Some ""
      else option_map (String c) (spec_scheme rest)
  end.

Definition spec_scheme_is_http (locator : string) : bool :=
  match spec_scheme locator with
  | Some s => String.eqb s "http" || String.eqb s "https"
  | None => false
  end.

(** ** Example configurations *)

Module example.

Definition nl : string := String "010" "".

(** The default value of the [-config] flag. *)
Definition config_path : string := "/app/config/vanity.yaml".

Definition foo_yaml : string :=
  ("/foo:" ++ nl ++
  "  repo: https://github.com/org/foo" ++ nl)%string.

Definition bar_yaml : string :=
  ("/bar:" ++ nl ++
  "  repo: https://example.org/bar.git" ++ nl)%string.

(** [/baz] is given a string where a mapping is expected. *)
Definition bar_baz_yaml : string :=
  ("/bar:" ++ nl ++
  "  repo: https://example.org/bar.git" ++ nl ++
  "/baz: oops" ++ nl)%string.

(** What the parser makes of the three documents. *)
Definition docs : list (string * plain.parsed) :=
  [ (foo_yaml,
     plain.Document (plain.mappingNode
       [ (plain.scalarNode "/foo" false,
          plain.mappingNode [ plain.pair "repo" "https://github.com/org/foo" ]) ]));
    (bar_yaml,
     plain.Document (plain.mappingNode
       [ (plain.scalarNode "/bar" false,
          plain.mappingNode [ plain.pair "repo" "https://example.org/bar.git" ]) ]));
    (bar_baz_yaml,
     plain.Document (plain.mappingNode
       [ (plain.scalarNode "/bar" false,
          plain.mappingNode [ plain.pair "repo" "https://example.org/bar.git" ]);
         plain.pair "/baz" "oops" ])) ].

(** Values in which html/template has nothing to escape. *)
Definition plain_text (s : string) : string := s.

(** The client reads the whole response. *)
Definition renders : option nat := None.

(** The client has gone away before the handler writes. *)
Definition breaks : option nat := Some 0.

(** A world whose configuration file holds [text]. *)
Definition disk (text : string) (c : option nat) : World :=
  {| ReadFile := fun p =>
       if String.eqb p config_path then (list_byte_of_string text, None)
       else ([], Some ErrReadFile);
     Get := fun _ => DoFails;
     yaml := plain.yaml_of docs;
     attrescaper := plain_text;
     urlescaper := plain_text;
     connection := c |}.

(** A world that serves [text] at [config_url] with status 200 and a body
    that is read to its end. *)
Definition config_url : string := "https://example.com/vanity.yaml".

Definition web (text : string) : World :=
  {| ReadFile := fun _ => ([], Some ErrReadFile);
     Get := fun u =>
       if String.eqb u config_url
       then Response 200 (list_byte_of_string text) None
       else DoFails;
     yaml := plain.yaml_of docs;
     attrescaper := plain_text;
     urlescaper := plain_text;
     connection := renders |}.

(** A relative file name that begins with the letters [http]. *)
Definition httpd_path : string := "httpd/vanity.yaml".

Definition httpd_world : World :=
  {| ReadFile := fun p =>
       if String.eqb p httpd_path then (list_byte_of_string foo_yaml, None)
       else ([], Some ErrReadFile);
     Get := fun _ => DoFails;    (* no scheme: the transport refuses the request *)
     yaml := plain.yaml_of docs;
     attrescaper := plain_text;
     urlescaper := plain_text;
     connection := renders |}.

(** [m] after an earlier load of [foo_yaml]. *)
Definition m_foo : Store :=
  Some {[ "/foo" := mkEntry "https://github.com/org/foo" "" ]}.

(** A display of 8192 bytes, and [m] after the load of a configuration
    that gives it to [/big]. *)
Definition long_display : string :=
  string_of_list_ascii (List.repeat "x"%char (N.to_nat 8192)).

Definition m_big : Store :=
  Some {[ "/big" := mkEntry "https://example.org/big.git" long_display ]}.

End example.

(** ** Goroutines

    [main] starts two goroutines, [refreshWhenSig]'s and [refreshYaml]'s,
    and the HTTP server runs [handle] in one goroutine per request.  They
    share [m] and [mutex], and interleave at the granularity of the steps
    below. *)

(** [sync.RWMutex]: [Lock] first excludes other writers and turns new
    readers away (the writer is pending), then waits until the readers
    that hold the lock have left (the writer is active); [RLock] succeeds
    when no writer is pending or active. *)
Inductive writer_state : Type := WFree | WPending | WActive.

Record RWMutex : Type := mkMutex {
  writer : writer_state;
  readerCount : nat;
}.

#[global] Instance writer_state_eq_dec : EqDecision writer_state.
Proof. solve_decision. Defined.

(** Where a call of [loadYaml] stands. *)
Inductive load_pc : Type :=
| AtReadFile                         (* vanity, err := readFile() *)
| AtLock (vanity : bytes)            (* mutex.Lock(), excluding writers *)
| AtLockWait (vanity : bytes)        (* mutex.Lock(), waiting for readers *)
| AtUnmarshal (vanity : bytes)       (* yaml.Unmarshal(vanity, &m) *)
| InUnmarshal (sets : list (string * Entry)) (terrors : bool)
                                     (* the decoder storing entries *)
| AtRange                            (* for _, e := range m *)
| AtUnlock (err : option error)      (* the deferred mutex.Unlock() *)
| Returned (err : option error).

(** Where a call of [handle] stands. *)
Inductive handle_pc : Type :=
| AtRLock                            (* mutex.RLock() *)
| AtIndex                            (* p, ok := m[current] *)
| AtRUnlock (p : option Entry)       (* mutex.RUnlock() *)
| AtRespond (p : option Entry)       (* if !ok ... *)
| Responded (p : option Entry) (w : ResponseWriter).

(** Where [main] stands. *)
Inductive main_pc : Type :=
| AtParse            (* flag.Parse() *)
| AtRefreshWhenSig   (* refreshWhenSig() *)
| AtRefreshYaml      (* refreshYaml() *)
| AtHostCheck        (* if host == "" { usage(); return } *)
| AtHandle           (* http.Handle("/", ...) *)
| AtListen           (* http.ListenAndServe: bind and listen *)
| Serving.           (* ... accepting connections *)

Inductive goroutine : Type :=
| GMain (pc : main_pc)
| GSignal (pc : option load_pc)      (* None: at s := <-sigs *)
| GRefresh (pc : option load_pc)     (* None: in time.Sleep(interval), which
                                        may end at any later step *)
| GHandle (current : string) (pc : handle_pc).

Record state : Type := mkState {
  m_now : Store;              (* the variable m *)
  mutex : RWMutex;
  pool : list goroutine;      (* the goroutines, in order of creation *)
  sigs : bool;                (* sigs, a channel of capacity 1, holds a signal *)
  notified : bool;            (* signal.Notify(sigs, syscall.SIGHUP) was called *)
  running : bool;             (* the process has not ended *)
  unlocked : list Store;      (* bookkeeping, read by no step: the value of
                                 m at each mutex.Unlock(), latest first *)
}.

(** The value of [m] when the write lock was last released ([nil] at
    process start). *)
Definition committed (s : state) : Store := hd None (unlocked s).

Definition initial : state :=
  mkState None (mkMutex WFree 0) [GMain AtParse] false false true [].

(** What happens from outside or inside the process. *)
Inductive event : Type :=
| Run (i : nat) (io : World)   (* goroutine i takes its next step, in world io *)
| Request (current : string)   (* the server accepts a request for a path *)
| Sighup                       (* the process is sent SIGHUP *)
| ListenError.                 (* ListenAndServe returns its error: log.Fatalln *)

(** What a step of a goroutine does to the rest of the process. *)
Inductive step_result (pc : Type) : Type :=
| Blocked
| Crash
| Next (m : Store) (mu : RWMutex) (unl : list Store) (next : pc).
Arguments Blocked {pc}.
Arguments Crash {pc}.
Arguments Next {pc} m mu unl next.

Section Goroutines.

Variable host : string.
Variable path : string.

(** One step of a call of [loadYaml]. *)
Definition load_step (io : World) (m : Store) (mu : RWMutex) (unl : list Store)
    (pc : load_pc) : step_result load_pc :=
  match pc with
  | AtReadFile =>
      match readFile path io with
      | Panics => Crash
      | Returns (_, Some err) => Next m mu unl (Returned (Some err))
      | Returns (vanity, None) => Next m mu unl (AtLock vanity)
      end
  | AtLock vanity =>
      match writer mu with
      | WFree => Next m (mkMutex WPending (readerCount mu)) unl (AtLockWait vanity)
      | _ => Blocked
      end
  | AtLockWait vanity =>
      match readerCount mu with
      | O => Next m (mkMutex WActive 0) unl (AtUnmarshal vanity)
      | S _ => Blocked
      end
  | AtUnmarshal vanity =>
      match yaml io vanity with
      | SyntaxError => Next m mu unl (AtUnlock (Some ErrYamlSyntax))
      | Decoded Untouched terrors => Next m mu unl (InUnmarshal [] terrors)
      | Decoded SetNil terrors => Next None mu unl (InUnmarshal [] terrors)
      | Decoded (StoreEntries sets) terrors =>
          Next (Some (MakeIfNil m)) mu unl (InUnmarshal sets terrors)
      end
  | InUnmarshal (kv :: sets) terrors =>
      Next (Some (SetMapIndex (MakeIfNil m) kv)) mu unl (InUnmarshal sets terrors)
  | InUnmarshal [] terrors =>
      if terrors then Next m mu unl (AtUnlock (Some ErrYamlDecode))
      else Next m mu unl AtRange
  | AtRange => Next (range_m m) mu unl (AtUnlock None)
  | AtUnlock err =>
      Next m (mkMutex WFree (readerCount mu)) (m :: unl) (Returned err)
  | Returned _ => Blocked
  end.

(** One step of a call of [handle]. *)
Definition handle_step (io : World) (current : string) (m : Store) (mu : RWMutex)
    (unl : list Store) (pc : handle_pc) : step_result handle_pc :=
  match pc with
  | AtRLock =>
      match writer mu with
      | WFree => Next m (mkMutex WFree (S (readerCount mu))) unl AtIndex
      | _ => Blocked
      end
  | AtIndex => Next m mu unl (AtRUnlock (index m current))
  | AtRUnlock p =>
      Next m (mkMutex (writer mu) (pred (readerCount mu))) unl (AtRespond p)
  | AtRespond p => Next m mu unl (Responded p (respond host io current p))
  | Responded _ _ => Blocked
  end.

Definition set_goroutine (s : state) (i : nat) (g : goroutine)
    (m : Store) (mu : RWMutex) (unl : list Store) : state :=
  mkState m mu (<[i := g]> (pool s)) (sigs s) (notified s) (running s) unl.

Definition spawn (s : state) (i : nat) (g new : goroutine) : state :=
  mkState (m_now s) (mutex s) (<[i := g]> (pool s) ++ [new])
          (sigs s) (notified s) (running s) (unlocked s).

(** The process ends: a goroutine panicked, [main] returned, or a signal
    killed it. *)
Definition exit (s : state) : state :=
  mkState (m_now s) (mutex s) (pool s) (sigs s) (notified s) false (unlocked s).

(** The loop around [loadYaml] in the two refreshing goroutines: a call
    that has returned leaves the goroutine waiting (for a signal, or for
    the sleep to end). *)
Definition loop_step (io : World) (s : state) (i : nat)
    (wrap : option load_pc -> goroutine) (pc : load_pc) : option state :=
  match pc with
  | Returned _ => Some (set_goroutine s i (wrap None) (m_now s) (mutex s) (unlocked s))
  | _ =>
      match load_step io (m_now s) (mutex s) (unlocked s) pc with
      | Blocked => None
      | Crash => Some (exit s)
      | Next m mu unl pc' => Some (set_goroutine s i (wrap (Some pc')) m mu unl)
      end
  end.

Definition goto (s : state) (i : nat) (g : goroutine) : state :=
  set_goroutine s i g (m_now s) (mutex s) (unlocked s).

(** One step of goroutine [i].  [main] returning ends the process. *)
Definition run (io : World) (s : state) (i : nat) : option state :=
  match pool s !! i with
  | None => None
  | Some (GMain pc) =>
      match pc with
      | AtParse => Some (goto s i (GMain AtRefreshWhenSig))
      | AtRefreshWhenSig =>
          (* sigs := make(chan os.Signal, 1); signal.Notify(sigs, syscall.SIGHUP);
             go func() { for { s := <-sigs; ...; loadYaml() } }() *)
          let s1 := spawn s i (GMain AtRefreshYaml) (GSignal None) in
          Some (mkState (m_now s1) (mutex s1) (pool s1) (sigs s1) true
                        (running s1) (unlocked s1))
      | AtRefreshYaml =>
          (* go func() { for { loadYaml(); time.Sleep(interval) } }() *)
          Some (spawn s i (GMain AtHostCheck) (GRefresh (Some AtReadFile)))
      | AtHostCheck =>
          if String.eqb host "" then Some (exit s)
          else Some (goto s i (GMain AtHandle))
      | AtHandle => Some (goto s i (GMain AtListen))
      | AtListen => Some (goto s i (GMain Serving))
      | Serving => None
      end
  | Some (GSignal None) =>
      if sigs s then
        Some (mkState (m_now s) (mutex s) (<[i := GSignal (Some AtReadFile)]> (pool s))
                      false (notified s) (running s) (unlocked s))
      else None
  | Some (GSignal (Some pc)) => loop_step io s i GSignal pc
  | Some (GRefresh None) => Some (goto s i (GRefresh (Some AtReadFile)))
  | Some (GRefresh (Some pc)) => loop_step io s i GRefresh pc
  | Some (GHandle current pc) =>
      match handle_step io current (m_now s) (mutex s) (unlocked s) pc with
      | Next m mu unl pc' => Some (set_goroutine s i (GHandle current pc') m mu unl)
      | _ => None
      end
  end.

(** The server accepts connections once [main] is inside [ListenAndServe]. *)
Definition serving (s : state) : bool :=
  match pool s !! 0%nat with
  | Some (GMain Serving) => true
  | _ => false
  end.

(** [main] is inside [ListenAndServe]. *)
Definition listening (s : state) : bool :=
  match pool s !! 0%nat with
  | Some (GMain AtListen) | Some (GMain Serving) => true
  | _ => false
  end.

(** One event.  A request starts a goroutine running [handle].  SIGHUP
    ends the process as long as it is not notified; once it is, os/signal
    sends it on [sigs] without blocking: the goroutine of [refreshWhenSig],
    the second to be created, is handed the signal when it waits in its
    receive and the channel is empty, otherwise the signal is put into the
    channel's buffer, or dropped when the buffer is full.  When
    [ListenAndServe] returns, [log.Fatalln] ends the process. *)
Definition exec (s : state) (ev : event) : option state :=
  if running s then
    match ev with
    | Run i io => run io s i
    | Request current =>
        if serving s then
          Some (mkState (m_now s) (mutex s) (pool s ++ [GHandle current AtRLock])
                        (sigs s) (notified s) (running s) (unlocked s))
        else None
    | Sighup =>
        if notified s then
          match sigs s, pool s !! 1%nat with
          | false, Some (GSignal None) =>
              Some (goto s 1 (GSignal (Some AtReadFile)))
          | _, _ =>
              Some (mkState (m_now s) (mutex s) (pool s) true (notified s)
                            (running s) (unlocked s))
          end
        else Some (exit s)
    | ListenError => if listening s then Some (exit s) else None
    end
  else None.

Fixpoint execs (s : state) (evs : list event) : option state :=
  match evs with
  | [] => Some s
  | ev :: evs' =>
      match exec s ev with
      | None => None
      | Some s' => execs s' evs'
      end
  end.

(** The states the process can be in. *)
Definition reachable (s : state) : Prop :=
  exists evs, execs initial evs = Some s.

End Goroutines.

(** *** Notions used to state what the goroutines guarantee *)

(** The call of [loadYaml] a goroutine is in, if any. *)
Definition loader_pc (g : goroutine) : option load_pc :=
  match g with
  | GSignal pc | GRefresh pc => pc
  | _ => None
  end.

(** Between [mutex.Lock()] and [mutex.Unlock()]. *)
Definition holds_lock (pc : load_pc) : bool :=
  match pc with
  | AtUnmarshal _ | InUnmarshal _ _ | AtRange | AtUnlock _ => true
  | _ => false
  end.

Definition in_critical (g : goroutine) : bool :=
  match loader_pc g with
  | Some pc => holds_lock pc
  | None => false
  end.

Definition in_lockwait (g : goroutine) : bool :=
  match loader_pc g with
  | Some (AtLockWait _) => true
  | _ => false
  end.

(** Between [mutex.RLock()] and [mutex.RUnlock()]. *)
Definition in_read (g : goroutine) : bool :=
  match g with
  | GHandle _ AtIndex | GHandle _ (AtRUnlock _) => true
  | _ => false
  end.

Fixpoint count (P : goroutine -> bool) (l : list goroutine) : nat :=
  match l with
  | [] => 0
  | g :: l' => (if P g then 1 else 0) + count P l'
  end.

(** What a call of [handle] has read from [m], once it has. *)
Definition looked_up (pc : handle_pc) : option (option Entry) :=
  match pc with
  | AtRLock | AtIndex => None
  | AtRUnlock p | AtRespond p | Responded p _ => Some p
  end.

(** What [loadYaml] makes of [m] between [Lock] and [Unlock], given the
    bytes it has read. *)
Definition critical (io : World) (vanity : bytes) (m : Store) : Store :=
  match Unmarshal io vanity m with
  | (m1, Some _) => m1
  | (m1, None) => range_m m1
  end.

(** What the rest of the critical section makes of [m], once the decoder
    has the document. *)
Definition finish (pc : load_pc) (m : Store) : Store :=
  match pc with
  | InUnmarshal sets terrors =>
      let m1 := foldl (fun cur kv => Some (SetMapIndex (MakeIfNil cur) kv)) m sets in
      if terrors then m1 else range_m m1
  | AtRange => range_m m
  | _ => m
  end.

(** The values [m] had at the successive [Unlock]s, latest first, are each
    what one whole critical section makes of the one before ([nil] at the
    start). *)
Fixpoint generations_ok (unl : list Store) : Prop :=
  match unl with
  | [] => True
  | g :: older =>
      (exists io vanity, g = critical io vanity (hd None older)) /\
      generations_ok older
  end.

(** While a call of [loadYaml] holds the lock: [m] is still as the last
    [Unlock] left it when the decoder has not started, and afterwards the
    rest of the section completes one whole critical section on that
    value. *)
Definition in_progress (pc : load_pc) (m c : Store) : Prop :=
  match pc with
  | AtUnmarshal _ => m = c
  | _ => exists io vanity, finish pc m = critical io vanity c
  end.

Section Invariant.

Variable host : string.

(** What holds of each goroutine. *)
Definition goroutine_ok (m c : Store) (unl : list Store) (x : goroutine) : Prop :=
  (forall pc, loader_pc x = Some pc -> holds_lock pc = true -> in_progress pc m c) /\
  (forall current pc p, x = GHandle current pc -> looked_up pc = Some p ->
     exists g, g ∈ unl ++ [None] /\ p = index g current) /\
  (forall current p w, x = GHandle current (Responded p w) ->
     exists io, w = respond host io current p).

(** What holds of every state of the process. *)
Record Inv (s : state) : Prop := mkInv {
  inv_readers : count in_read (pool s) = readerCount (mutex s);
  inv_active :
    count in_critical (pool s) = if decide (writer (mutex s) = WActive) then 1 else 0;
  inv_pending :
    count in_lockwait (pool s) = if decide (writer (mutex s) = WPending) then 1 else 0;
  inv_excl : writer (mutex s) = WActive -> readerCount (mutex s) = 0;
  inv_quiet : writer (mutex s) <> WActive -> m_now s = committed s;
  inv_gens : generations_ok (unlocked s);
  inv_pool : forall j x, pool s !! j = Some x ->
                         goroutine_ok (m_now s) (committed s) (unlocked s) x;
}.

End Invariant.

(** Which function a goroutine runs: [main], the loop of [refreshWhenSig],
    the loop of [refreshYaml], or [handle]. *)
Definition kind (g : goroutine) : nat :=
  match g with
  | GMain _ => 0
  | GSignal _ => 1
  | GRefresh _ => 2
  | GHandle _ _ => 3
  end.

(** The goroutines in order of creation: [main], then the two loops when
    [main] has started them, then the calls of [handle]. *)
Definition layout (s : state) : Prop :=
  exists pc, pool s !! 0%nat = Some (GMain pc) /\
    match pc with
    | AtParse | AtRefreshWhenSig => map kind (pool s) = [0]
    | AtRefreshYaml => map kind (pool s) = [0; 1]
    | AtHostCheck | AtHandle | AtListen =>  map kind (pool s) = [0; 1; 2]
    | Serving => exists n, map kind (pool s) = [0; 1; 2] ++ replicate n 3
    end.

(** The refreshing goroutine, the third to be created, is back from a call
    of [loadYaml]. *)
Definition refresh_returned (s : state) : bool :=
  match pool s !! 2%nat with
  | Some (GRefresh (Some (Returned _))) | Some (GRefresh None) => true
  | _ => false
  end.

Section Runs.

Variable host : string.
Variable path : string.

(** ... at some moment of a run. *)
Fixpoint returned_during (s : state) (evs : list event) : bool :=
  refresh_returned s ||
  match evs with
  | [] => false
  | ev :: evs' =>
      match exec host path s ev with
      | Some s' => returned_during s' evs'
      | None => false
      end
  end.

(** "First populated by the initial synchronous load before the server
    begins accepting connections": in every run that has the server
    accepting, the first call of [loadYaml] has returned. *)
Definition load_precedes_serving : Prop :=
  forall evs s,
    execs host path initial evs = Some s ->
    serving s = true ->
    returned_during initial evs = true.

(** A call of [loadYaml] run on its own, for at most [fuel] steps. *)
Fixpoint load_run (fuel : nat) (io : World) (m : Store) (mu : RWMutex)
    (unl : list Store) (pc : load_pc) : step_result load_pc :=
  match fuel with
  | O => Next m mu unl pc
  | S fuel' =>
      match pc with
      | Returned _ => Next m mu unl pc
      | _ =>
          match load_step path io m mu unl pc with
          | Next m' mu' unl' pc' => load_run fuel' io m' mu' unl' pc'
          | r => r
          end
      end
  end.

End Runs.

Module trace.

(** [main] runs up to [ListenAndServe], a request for [/foo] arrives and is
    served; the refreshing goroutine has not been scheduled yet. *)
Definition w : World := example.disk example.foo_yaml example.renders.

Definition served_before_load : list event :=
  [ Run 0 w; Run 0 w; Run 0 w; Run 0 w; Run 0 w; Run 0 w;
    Request "/foo";
    Run 3 w; Run 3 w; Run 3 w; Run 3 w ].

(** The refreshing goroutine loads [foo_yaml] while a request for [/foo]
    waits, then the request is served. *)
Definition served_after_load : list event :=
  [ Run 0 w; Run 0 w; Run 0 w; Run 0 w; Run 0 w; Run 0 w;
    Request "/foo";
    Run 2 w; Run 2 w; Run 2 w; Run 2 w; Run 2 w; Run 2 w; Run 2 w; Run 2 w;
    Run 3 w; Run 3 w; Run 3 w; Run 3 w ].

End trace.

(** ** Statements of the specification, as it words them *)

(** "The previous mapping is discarded and fully replaced (no incremental
    merge)": after a successful reload [m] has the entries that the same
    document gives a process that starts with the nil map, and no others. *)
Definition full_replacement (path : string) (io : World) (m : Store) : Prop :=
  forall m' fresh,
    loadYaml path io m = Returns (m', None) ->
    loadYaml path io None = Returns (fresh, None) ->
    forall k, index m' k = index fresh k.

(** "A failed reload ... the Shared Config Store is left unchanged". *)
Definition failure_leaves_m (path : string) (io : World) (m : Store) : Prop :=
  forall m' err, loadYaml path io m = Returns (m', Some err) -> m' = m.

(** "Deterministic for identical input bytes", whatever [m] held before. *)
Definition prior_m_irrelevant (path : string) (io : World) : Prop :=
  forall m1 m2 r1 r2,
    loadYaml path io m1 = Returns (r1, None) ->
    loadYaml path io m2 = Returns (r2, None) ->
    r1 = r2.

(** "If the locator's scheme indicates HTTP or HTTPS, issue a single GET
    ...  Otherwise, treat the locator as a filesystem path". *)
Definition dispatch_by_scheme (path : string) : Prop :=
  readFile_route path = ViaHTTP <-> spec_scheme_is_http path = true.

(** [delete(m, k)] *)
Definition delete_key (k : string) (m : Store) : Store :=
  match m with
  | None => None
  | Some mp => Some (delete k mp)
  end.

(** ** Further notions about the goroutines *)

(** At an operation of [mutex] that can make the goroutine wait:
    [mutex.RLock()] in [handle], [mutex.Lock()] in [loadYaml]. *)
Definition at_mutex (g : goroutine) : bool :=
  match g with
  | GHandle _ AtRLock => true
  | _ =>
      match loader_pc g with
      | Some (AtLock _) | Some (AtLockWait _) => true
      | _ => false
      end
  end.

(** Holds [mutex], for writing or for reading. *)
Definition holds_mutex (g : goroutine) : bool := in_critical g || in_read g.

Definition is_sighup (ev : event) : bool :=
  match ev with
  | Sighup => true
  | _ => false
  end.

Module trace2.

(** [main] up to [ListenAndServe], then the refreshing goroutine through
    [readFile] and [mutex.Lock()]: it is about to decode. *)
Definition before_decode : list event :=
  [ Run 0 trace.w; Run 0 trace.w; Run 0 trace.w; Run 0 trace.w; Run 0 trace.w;
    Run 0 trace.w;
    Run 2 trace.w; Run 2 trace.w; Run 2 trace.w ].

(** ... and a request for [/foo] has arrived, which waits at [RLock]. *)
Definition reader_waits : list event :=
  before_decode ++ [ Request "/foo" ].

(** [main] has called [refreshWhenSig] and [refreshYaml]. *)
Definition loops_started : list event :=
  [ Run 0 trace.w; Run 0 trace.w; Run 0 trace.w ].

(** [main] with an empty [-host]: it returns after [usage()]. *)
Definition no_host : list event :=
  [ Run 0 trace.w; Run 0 trace.w; Run 0 trace.w; Run 0 trace.w ].

(** The source answers the GET with another status than 200: the
    refreshing goroutine's [loadYaml] returns the error, then a request
    for [/foo] is served. *)
Definition unavailable : World :=
  {| ReadFile := fun _ => ([], Some ErrReadFile);
     Get := fun _ => Response 503 [] None;
     yaml := plain.yaml_of example.docs;
     attrescaper := example.plain_text;
     urlescaper := example.plain_text;
     connection := example.renders |}.

Definition http_served : list event :=
  [ Run 0 unavailable; Run 0 unavailable; Run 0 unavailable; Run 0 unavailable;
    Run 0 unavailable; Run 0 unavailable;
    Run 2 unavailable;
    Request "/foo";
    Run 3 unavailable; Run 3 unavailable; Run 3 unavailable; Run 3 unavailable ].

End trace2.

(** * Properties *)

Ltac split_ands := repeat match goal with |- _ /\ _ => split end.

(** ** The reload path, one call at a time *)

Section ReloadFacts.

Variable path : string.
Variable io : World.

Lemma range_body_shared (m : Store) (e : Entry) : (range_body m e).1 = m.
Proof.
  unfold range_body.
  destruct (negb (String.eqb (Display e) "")); [reflexivity|].
  destruct (strings.Contains (Repo e) "github.com"); reflexivity.
Qed.

(** The loop over [m] leaves [m] as it was: its assignments go to the loop
    variable. *)
Lemma range_m_id (m : Store) : range_m m = m.
Proof.
  unfold range_m. generalize (entries m) as l.
  intros l. revert m. induction l as [|kv l IH]; intros m; simpl.
  - reflexivity.
  - rewrite range_body_shared. apply IH.
Qed.

Lemma foldl_SetMapIndex_lookup (sets : list (string * Entry)) (mp : Mapping) (k : string) :
  foldl SetMapIndex mp sets !! k =
  match document_map sets !! k with
  | Some e => Some e
  | None => mp !! k
  end.
Proof.
  unfold document_map.
  induction sets as [|kv sets IH] using rev_ind; simpl.
  - rewrite lookup_empty. reflexivity.
  - rewrite !foldl_app. simpl. unfold SetMapIndex at 1 3.
    destruct (decide (kv.1 = k)) as [->|Hne].
    + rewrite !lookup_insert_eq. reflexivity.
    + rewrite !lookup_insert_ne by assumption. apply IH.
Qed.

Lemma foldl_SetMapIndex_twice (sets : list (string * Entry)) (mp : Mapping) :
  foldl SetMapIndex (foldl SetMapIndex mp sets) sets = foldl SetMapIndex mp sets.
Proof.
  apply map_eq. intros k.
  rewrite (foldl_SetMapIndex_lookup sets (foldl SetMapIndex mp sets)).
  rewrite (foldl_SetMapIndex_lookup sets mp).
  destruct (document_map sets !! k); reflexivity.
Qed.

Lemma apply_effect_twice (eff : yaml_effect) (m : Store) :
  apply_effect eff (apply_effect eff m) = apply_effect eff m.
Proof.
  destruct eff as [| |sets]; simpl; try reflexivity.
  f_equal. apply foldl_SetMapIndex_twice.
Qed.

(** What a successful call has done. *)
Lemma loadYaml_ok (m m' : Store) :
  loadYaml path io m = Returns (m', None) ->
  exists vanity eff,
    readFile path io = Returns (vanity, None) /\
    yaml io vanity = Decoded eff false /\
    m' = apply_effect eff m.
Proof.
  unfold loadYaml, Unmarshal.
  destruct (readFile path io) as [[vanity [e|]]|] eqn:Hr; try discriminate.
  destruct (yaml io vanity) as [|eff [|]] eqn:Hy; try discriminate.
  intros H. inversion H. rewrite range_m_id.
  exists vanity, eff. repeat split; assumption || reflexivity.
Qed.

Lemma loadYaml_ok_intro (m : Store) (vanity : bytes) (eff : yaml_effect) :
  readFile path io = Returns (vanity, None) ->
  yaml io vanity = Decoded eff false ->
  loadYaml path io m = Returns (apply_effect eff m, None).
Proof.
  intros Hr Hy. unfold loadYaml, Unmarshal. rewrite Hr, Hy.
  rewrite range_m_id. reflexivity.
Qed.

(** What a failed call has done. *)
Lemma loadYaml_err (m m' : Store) (err : error) :
  loadYaml path io m = Returns (m', Some err) ->
  (exists vanity, readFile path io = Returns (vanity, Some err) /\ m' = m) \/
  (exists vanity, readFile path io = Returns (vanity, None) /\
                  yaml io vanity = SyntaxError /\ err = ErrYamlSyntax /\ m' = m) \/
  (exists vanity eff, readFile path io = Returns (vanity, None) /\
                      yaml io vanity = Decoded eff true /\ err = ErrYamlDecode /\
                      m' = apply_effect eff m).
Proof.
  unfold loadYaml, Unmarshal.
  destruct (readFile path io) as [[vanity [e|]]|] eqn:Hr; try discriminate.
  - intros H. inversion H; subst. left. exists vanity. split; reflexivity.
  - destruct (yaml io vanity) as [|eff [|]] eqn:Hy; try discriminate.
    + intros H. inversion H; subst. right. left. exists vanity.
      repeat split; assumption || reflexivity.
    + intros H. inversion H; subst. right. right.
      exists vanity, eff. repeat split; assumption || reflexivity.
Qed.

(** [loadHTTPFile] returns only errors. *)
Lemma loadHTTPFile_returns (vanity : bytes) (err : option error) :
  loadHTTPFile path io = Returns (vanity, err) -> err <> None.
Proof.
  unfold loadHTTPFile.
  destruct (Get io path) as [| |code body [e|]]; try (intros H; inversion H; discriminate).
  - destruct (negb (code =? 200)%Z); intros H; inversion H; discriminate.
  - destruct (negb (code =? 200)%Z); intros H; inversion H; discriminate.
Qed.

Lemma loadHTTPFile_panics (body : bytes) :
  Get io path = Response 200 body None -> loadHTTPFile path io = Panics.
Proof. intros H. unfold loadHTTPFile. rewrite H. reflexivity. Qed.

Lemma HasPrefix_app (s p : string) :
  strings.HasPrefix s p = true <-> exists rest, s = (p ++ rest)%string.
Proof.
  unfold strings.HasPrefix. revert s.
  induction p as [|c p IH]; intros s; simpl.
  - split; [intros _; exists s; reflexivity|].
    intros _. destruct s; reflexivity.
  - destruct s as [|d s]; simpl.
    + split; [discriminate|]. intros [rest H]. discriminate.
    + destruct (Ascii.ascii_dec c d) as [->|Hne].
      * rewrite IH. split; intros [rest H]; exists rest.
        -- rewrite H. reflexivity.
        -- inversion H. reflexivity.
      * split; [discriminate|]. intros [rest H]. inversion H. congruence.
Qed.

End ReloadFacts.

(** ** Enrichment *)

(** C1 (the code does not do this).  [foo_yaml] is the configuration of
    the specification's first scenario: the entry [/foo] has a repo on
    github.com and no display.  After a successful load into the nil map,
    [m] holds that entry with the display still empty: the template that
    the loop computes is assigned to the loop variable only. *)
Theorem C1_synthesized_display_is_lost :
  exists m',
    loadYaml example.config_path (example.disk example.foo_yaml example.renders) None
      = Returns (m', None) /\
    index m' "/foo" = Some (mkEntry "https://github.com/org/foo" "") /\
    strings.Contains "https://github.com/org/foo" "github.com" = true /\
    display_template "https://github.com/org/foo" =
      "https://github.com/org/foo https://github.com/org/foo/tree/master{/dir} https://github.com/org/foo/blob/master{/dir}/{file}#L{line}" /\
    display_template "https://github.com/org/foo" <> "".
Proof.
  exists (apply_effect
            (StoreEntries [("/foo", mkEntry "https://github.com/org/foo" "")]) None).
  split_ands; try (vm_compute; reflexivity).
  vm_compute. discriminate.
Qed.

(** In general, a successful load leaves in [m] what the decoder stored. *)
Lemma loadYaml_stores_what_Unmarshal_stored (path : string) (io : World)
    (m m' : Store) :
  loadYaml path io m = Returns (m', None) ->
  exists vanity, readFile path io = Returns (vanity, None) /\
                 Unmarshal io vanity m = (m', None).
Proof.
  intros H. destruct (loadYaml_ok _ _ _ _ H) as (vanity & eff & Hr & Hy & ->).
  exists vanity. split; [assumption|].
  unfold Unmarshal. rewrite Hy. reflexivity.
Qed.

(** ** Replacement *)

(** C2, as stated, fails: [m] holds [/foo] from an earlier load, the file
    now holds [bar_yaml]; the reload succeeds and [/foo] is still there. *)
Lemma C2_stale_key_survives :
  ~ full_replacement example.config_path
      (example.disk example.bar_yaml example.renders) example.m_foo.
Proof.
  intros H.
  pose (eff := StoreEntries [("/bar", mkEntry "https://example.org/bar.git" "")]).
  assert (H1 : loadYaml example.config_path
                 (example.disk example.bar_yaml example.renders) example.m_foo
               = Returns (apply_effect eff example.m_foo, None))
    by (vm_compute; reflexivity).
  assert (H2 : loadYaml example.config_path
                 (example.disk example.bar_yaml example.renders) None
               = Returns (apply_effect eff None, None))
    by (vm_compute; reflexivity).
  assert (E1 : index (apply_effect eff example.m_foo) "/foo"
               = Some (mkEntry "https://github.com/org/foo" ""))
    by (vm_compute; reflexivity).
  assert (E2 : index (apply_effect eff None) "/foo" = None)
    by (vm_compute; reflexivity).
  specialize (H _ _ H1 H2 "/foo").
  rewrite E1, E2 in H. discriminate H.
Qed.

(** C2, amended.  A successful reload updates [m] in place with what the
    decoder stores.  For a mapping document every key of the document is
    bound to the entry decoded for it, and every other key keeps the entry
    it had before the reload; an empty stream leaves [m] as it was and a
    null document sets it to nil. *)
Theorem C2_reload_updates_in_place (path : string) (io : World) (m m' : Store) :
  loadYaml path io m = Returns (m', None) ->
  exists vanity eff,
    readFile path io = Returns (vanity, None) /\
    yaml io vanity = Decoded eff false /\
    match eff with
    | Untouched => m' = m
    | SetNil => m' = None
    | StoreEntries sets =>
        forall k, index m' k =
                  match document_map sets !! k with
                  | Some e => Some e
                  | None => index m k
                  end
    end.
Proof.
  intros H. destruct (loadYaml_ok _ _ _ _ H) as (vanity & eff & Hr & Hy & ->).
  exists vanity, eff. repeat split; try assumption.
  destruct eff as [| |sets]; simpl; try reflexivity.
  intros k. rewrite foldl_SetMapIndex_lookup.
  destruct (document_map sets !! k); [reflexivity|].
  destruct m; simpl; [reflexivity|apply lookup_empty].
Qed.

(** ** Failure *)

(** C3, as stated, fails: the decoder stores [/bar], then meets [/baz]
    whose value does not fit; [loadYaml] returns the type error and [m]
    has changed. *)
Lemma C3_type_error_after_store :
  ~ failure_leaves_m example.config_path
      (example.disk example.bar_baz_yaml example.renders) example.m_foo.
Proof.
  intros H.
  pose (eff := StoreEntries [("/bar", mkEntry "https://example.org/bar.git" "")]).
  assert (H1 : loadYaml example.config_path
                 (example.disk example.bar_baz_yaml example.renders) example.m_foo
               = Returns (apply_effect eff example.m_foo, Some ErrYamlDecode))
    by (vm_compute; reflexivity).
  assert (E1 : index (apply_effect eff example.m_foo) "/bar"
               = Some (mkEntry "https://example.org/bar.git" ""))
    by (vm_compute; reflexivity).
  assert (E2 : index example.m_foo "/bar" = None)
    by (vm_compute; reflexivity).
  specialize (H _ _ H1).
  rewrite H in E1. rewrite E1 in E2. discriminate E2.
Qed.

(** C3, amended.  A reload that fails before the decoder is given [m]
    (the source is unreachable, answers with another status than 200,
    cannot be read, or the parser rejects the document) leaves [m] exactly
    as it was, and every request is answered as before.  A reload that
    fails once the decoder has started (it reports type errors at the end,
    or gives up on the way) has updated [m] in place with what the decoder
    stored: every key it stored is bound to the entry decoded for it and
    every other key keeps the entry it had before (a null document has set
    [m] to nil). *)
Theorem C3_failure_by_stage (path host : string) (io : World)
    (m m' : Store) (err : error) :
  loadYaml path io m = Returns (m', Some err) ->
  (((exists vanity, readFile path io = Returns (vanity, Some err)) \/
    (exists vanity, readFile path io = Returns (vanity, None) /\
                    yaml io vanity = SyntaxError /\ err = ErrYamlSyntax)) /\
   m' = m /\
   forall current, handle host io m' current = handle host io m current) \/
  (exists vanity eff,
     readFile path io = Returns (vanity, None) /\
     yaml io vanity = Decoded eff true /\ err = ErrYamlDecode /\
     match eff with
     | Untouched => m' = m
     | SetNil => m' = None
     | StoreEntries sets =>
         forall k, index m' k =
                   match document_map sets !! k with
                   | Some e => Some e
                   | None => index m k
                   end
     end).
Proof.
  intros H.
  destruct (loadYaml_err _ _ _ _ _ H)
    as [(v & Hr & ->)|[(v & Hr & Hy & -> & ->)|(v & eff & Hr & Hy & -> & ->)]].
  - left. split; [left; exists v; exact Hr|]. split; reflexivity.
  - left. split; [right; exists v; split_ands; [exact Hr|exact Hy|reflexivity]|].
    split; reflexivity.
  - right. exists v, eff. split_ands; [exact Hr|exact Hy|reflexivity|].
    destruct eff as [| |sets]; simpl; try reflexivity.
    intros k. rewrite foldl_SetMapIndex_lookup.
    destruct (document_map sets !! k); [reflexivity|].
    destruct m; simpl; [reflexivity|apply lookup_empty].
Qed.

(** ** The remote source *)

(** C4 (the code does not do this).  The server answers the GET with
    status 200 and the body is read to its end without error:
    [loadHTTPFile] panics, and so do [readFile] and [loadYaml]. *)
Theorem C4_loadHTTPFile_panics_on_success :
  Get (example.web example.foo_yaml) example.config_url
    = Response 200 (list_byte_of_string example.foo_yaml) None /\
  readFile_route example.config_url = ViaHTTP /\
  loadHTTPFile example.config_url (example.web example.foo_yaml) = Panics /\
  readFile example.config_url (example.web example.foo_yaml) = Panics /\
  loadYaml example.config_url (example.web example.foo_yaml) None = Panics.
Proof. split_ands; vm_compute; reflexivity. Qed.

(** ** Determinism *)

(** C5, as stated, fails: the same bytes, [bar_yaml], loaded into the nil
    map and into a map that holds [/foo], give different mappings. *)
Lemma C5_result_depends_on_prior_m :
  ~ prior_m_irrelevant example.config_path
      (example.disk example.bar_yaml example.renders).
Proof.
  intros H.
  pose (eff := StoreEntries [("/bar", mkEntry "https://example.org/bar.git" "")]).
  assert (H1 : loadYaml example.config_path
                 (example.disk example.bar_yaml example.renders) None
               = Returns (apply_effect eff None, None))
    by (vm_compute; reflexivity).
  assert (H2 : loadYaml example.config_path
                 (example.disk example.bar_yaml example.renders) example.m_foo
               = Returns (apply_effect eff example.m_foo, None))
    by (vm_compute; reflexivity).
  assert (E1 : index (apply_effect eff None) "/foo" = None)
    by (vm_compute; reflexivity).
  assert (E2 : index (apply_effect eff example.m_foo) "/foo"
               = Some (mkEntry "https://github.com/org/foo" ""))
    by (vm_compute; reflexivity).
  specialize (H _ _ _ _ H1 H2).
  rewrite H in E1. rewrite E1 in E2. discriminate E2.
Qed.

(** C5, amended.  The resulting mapping is a function of the input bytes
    and of the mapping held before.  Reloading the same bytes again
    changes nothing; and two reloads of the same bytes into different
    mappings agree on every key, except where each has kept the entry (or
    the absence) it had before. *)
Theorem C5_deterministic_given_prior_m (path : string) (io : World)
    (m1 m2 r1 r2 : Store) :
  loadYaml path io m1 = Returns (r1, None) ->
  loadYaml path io m2 = Returns (r2, None) ->
  loadYaml path io r1 = Returns (r1, None) /\
  (m1 = m2 -> r1 = r2) /\
  forall k, index r1 k <> index r2 k ->
            index r1 k = index m1 k /\ index r2 k = index m2 k.
Proof.
  intros H1 H2.
  destruct (loadYaml_ok _ _ _ _ H1) as (v1 & eff1 & Hr1 & Hy1 & ->).
  destruct (loadYaml_ok _ _ _ _ H2) as (v2 & eff2 & Hr2 & Hy2 & ->).
  rewrite Hr1 in Hr2. inversion Hr2; subst v2.
  rewrite Hy1 in Hy2. inversion Hy2; subst eff2.
  split; [|split].
  - rewrite <- (apply_effect_twice eff1 m1) at 2.
    apply loadYaml_ok_intro with (vanity := v1); assumption.
  - intros ->. reflexivity.
  - intros k. destruct eff1 as [| |sets]; simpl.
    + intros _. split; reflexivity.
    + intros Hk. contradiction.
    + rewrite !foldl_SetMapIndex_lookup.
      destruct (document_map sets !! k); [intros Hk; contradiction|].
      intros _. destruct m1, m2; simpl; rewrite ?lookup_empty; split; reflexivity.
Qed.

(** ** Dispatch on the locator *)

(** C6, as stated, fails: [httpd/vanity.yaml] has no scheme, and is
    fetched over HTTP all the same, not read from disk. *)
Lemma C6_prefix_is_not_scheme :
  ~ dispatch_by_scheme example.httpd_path.
Proof.
  unfold dispatch_by_scheme. intros [H _].
  assert (E1 : readFile_route example.httpd_path = ViaHTTP)
    by (vm_compute; reflexivity).
  assert (E2 : spec_scheme_is_http example.httpd_path = false)
    by (vm_compute; reflexivity).
  specialize (H E1). rewrite E2 in H. discriminate H.
Qed.

(** In that case the file, which exists, is never read. *)
Lemma httpd_path_not_read_from_disk :
  loadDiskFile example.httpd_path example.httpd_world
    = Returns (list_byte_of_string example.foo_yaml, None) /\
  readFile example.httpd_path example.httpd_world = Returns ([], Some ErrDo).
Proof. split_ands; vm_compute; reflexivity. Qed.

(** C6, amended.  [readFile] fetches over HTTP if and only if the locator
    begins with the four letters [http], whatever follows them, so every
    locator written [http://...] or [https://...] is fetched; every other
    locator is read from disk in full with [ioutil.ReadFile]. *)
Theorem C6_dispatch_by_prefix (path : string) (io : World) :
  (readFile_route path = ViaHTTP <-> exists rest, path = ("http" ++ rest)%string) /\
  (forall rest, path = ("http://" ++ rest)%string \/ path = ("https://" ++ rest)%string ->
                readFile_route path = ViaHTTP) /\
  match readFile_route path with
  | ViaHTTP => readFile path io = loadHTTPFile path io
  | ViaDisk => readFile path io = Returns (ReadFile io path)
  end.
Proof.
  assert (Hiff : readFile_route path = ViaHTTP <->
                 exists rest, path = ("http" ++ rest)%string).
  { unfold readFile_route. rewrite <- HasPrefix_app.
    destruct (strings.HasPrefix path "http") eqn:H1; simpl.
    - split; reflexivity.
    - destruct (strings.HasPrefix path "https") eqn:H2.
      + apply HasPrefix_app in H2 as [rest ->]. simpl in H1. discriminate H1.
      + split; discriminate. }
  split; [exact Hiff|]. split.
  - intros rest [->| ->]; apply Hiff; eexists; reflexivity.
  - unfold readFile. destruct (readFile_route path); [reflexivity|].
    unfold loadDiskFile. destruct (ReadFile io path); reflexivity.
Qed.

(** ** The request handler *)

Lemma gone_small (c : option nat) (n : nat) :
  n <= bufferBeforeChunkingSize -> gone c n = false.
Proof.
  intros H. destruct c as [l|]; [|reflexivity]. simpl.
  apply Nat.ltb_ge. lia.
Qed.

Lemma gone_mono (c : option nat) (n n' : nat) :
  n' <= n -> gone c n = false -> gone c n' = false.
Proof.
  destruct c as [l|]; [|reflexivity]. simpl.
  rewrite !Nat.ltb_ge. lia.
Qed.

Lemma sent_app (h : option Z) (l : list string) (d : string) (f : bool) (c : option nat) :
  sent (mkResponse h (l ++ [d]) f c) = sent (mkResponse h l f c) + String.length d.
Proof. unfold sent. simpl. rewrite map_app, list_sum_app. simpl. lia. Qed.

Lemma WriteHeader_fixed (w : ResponseWriter) (code c : Z) :
  wroteHeader w = Some c -> WriteHeader w code = w.
Proof. intros H. unfold WriteHeader. rewrite H. reflexivity. Qed.

(** The first [Write] fixes the status; every [Write] keeps it. *)
Lemma Write_header (w : ResponseWriter) (d : string) :
  wroteHeader (Write w d).1 = Some (status w).
Proof.
  unfold Write, WriteHeader, status.
  destruct (wroteHeader w) eqn:E; simpl;
    repeat match goal with |- context [if ?b then _ else _] => destruct b end;
    simpl; rewrite ?E; reflexivity.
Qed.

Lemma Write_client (w : ResponseWriter) (d : string) :
  client (Write w d).1 = client w.
Proof.
  unfold Write, WriteHeader.
  destruct (wroteHeader w); simpl;
    repeat match goal with |- context [if ?b then _ else _] => destruct b end;
    reflexivity.
Qed.

(** A [Write] that returns an error has written nothing, and the writer
    has failed. *)
Lemma Write_error (w : ResponseWriter) (d : string) :
  (Write w d).2 = true ->
  written (Write w d).1 = written w /\ failed (Write w d).1 = true.
Proof.
  unfold Write, WriteHeader.
  destruct (wroteHeader w); simpl;
    repeat match goal with
           | |- context [if ?b then _ else _] => destruct b eqn:?
           end; simpl; try discriminate; intros _; split; try reflexivity; assumption.
Qed.

(** A [Write] that returns no error has written its data. *)
Lemma Write_ok (w : ResponseWriter) (d : string) :
  (Write w d).2 = false ->
  written (Write w d).1 = written w ++ [d] /\ failed (Write w d).1 = failed w.
Proof.
  unfold Write, WriteHeader.
  destruct (wroteHeader w); simpl;
    repeat match goal with
           | |- context [if ?b then _ else _] => destruct b eqn:?
           end; simpl; try discriminate; intros _; split; try reflexivity;
    symmetry; assumption.
Qed.

(** A [Write] succeeds when the writer has not failed and the connection
    takes the body up to the end of the data. *)
Lemma Write_fits (w : ResponseWriter) (d : string) :
  failed w = false ->
  gone (client w) (sent w + String.length d) = false ->
  Write w d = (mkResponse (Some (status w)) (written w ++ [d]) false (client w), false).
Proof.
  intros Hf Hg. unfold Write, WriteHeader, status.
  destruct (wroteHeader w) eqn:E; simpl; rewrite ?E; unfold sent in *; simpl;
    rewrite Hf, ?Hg; destruct (String.eqb d ""); reflexivity.
Qed.

(** Once the writer has failed, data is refused and nothing changes. *)
Lemma Write_after_failure (w : ResponseWriter) (d : string) (c : Z) :
  failed w = true -> wroteHeader w = Some c -> String.eqb d "" = false ->
  Write w d = (w, true).
Proof.
  intros Hf Hh Hd. unfold Write. rewrite (WriteHeader_fixed _ _ _ Hh), Hd, Hf.
  reflexivity.
Qed.

Lemma walk_header (outputs : list string) (w : ResponseWriter) (c : Z) :
  wroteHeader w = Some c -> wroteHeader (walk w outputs).1 = Some c.
Proof.
  revert w. induction outputs as [|o rest IH]; intros w H; simpl; [exact H|].
  pose proof (Write_header w o) as Hh. unfold status in Hh. rewrite H in Hh. simpl in Hh.
  destruct (Write w o) as [w1 [|]]; simpl in *; [exact Hh|]. apply IH, Hh.
Qed.

(** Executing a template that has a node fixes the status, at what it was
    or at 200. *)
Lemma walk_status (o : string) (rest : list string) (w : ResponseWriter) :
  wroteHeader (walk w (o :: rest)).1 = Some (status w).
Proof.
  simpl. pose proof (Write_header w o) as Hh.
  destruct (Write w o) as [w1 [|]]; simpl in *; [exact Hh|].
  apply walk_header, Hh.
Qed.

Lemma walk_client (outputs : list string) (w : ResponseWriter) :
  client (walk w outputs).1 = client w.
Proof.
  revert w. induction outputs as [|o rest IH]; intros w; simpl; [reflexivity|].
  pose proof (Write_client w o) as Hc.
  destruct (Write w o) as [w1 [|]]; simpl in *; [exact Hc|].
  rewrite IH. exact Hc.
Qed.

(** An execution that returns an error leaves the writer failed. *)
Lemma walk_error (outputs : list string) (w : ResponseWriter) :
  (walk w outputs).2 = true -> failed (walk w outputs).1 = true.
Proof.
  revert w. induction outputs as [|o rest IH]; intros w; simpl; [discriminate|].
  pose proof (Write_error w o) as He.
  destruct (Write w o) as [w1 [|]]; simpl in *.
  - intros _. apply He. reflexivity.
  - apply IH.
Qed.

Lemma walk_ok (outputs : list string) (w : ResponseWriter) :
  (walk w outputs).2 = false -> failed (walk w outputs).1 = failed w.
Proof.
  revert w. induction outputs as [|o rest IH]; intros w; simpl; [reflexivity|].
  pose proof (Write_ok w o) as Ho.
  destruct (Write w o) as [w1 [|]]; simpl in *; [discriminate|].
  intros H. rewrite (IH _ H). apply Ho. reflexivity.
Qed.

(** What has been written is the outputs up to the first [Write] that
    failed: all of them when no error is returned. *)
Lemma walk_written (outputs : list string) (w : ResponseWriter) :
  exists n, written (walk w outputs).1 = written w ++ take n outputs /\
            n <= length outputs /\
            ((walk w outputs).2 = false -> n = length outputs).
Proof.
  revert w. induction outputs as [|o rest IH]; intros w; simpl.
  - exists 0. rewrite app_nil_r. split_ands; [reflexivity|lia|reflexivity].
  - pose proof (Write_error w o) as He. pose proof (Write_ok w o) as Ho.
    destruct (Write w o) as [w1 [|]]; simpl in *.
    + exists 0. simpl. rewrite app_nil_r.
      split_ands; [apply He; reflexivity|lia|discriminate].
    + destruct (IH w1) as (n & Hw & Hn & Hall). exists (S n). simpl.
      destruct (Ho eq_refl) as [Ho1 _]. rewrite Hw, Ho1, <- app_assoc.
      split_ands; [reflexivity|lia|]. intros H. rewrite (Hall H). reflexivity.
Qed.

(** An execution whose whole output the connection takes writes all of it
    and returns no error. *)
Lemma walk_fits (outputs : list string) (w : ResponseWriter) :
  failed w = false ->
  gone (client w) (sent w + list_sum (map String.length outputs)) = false ->
  (walk w outputs).2 = false.
Proof.
  revert w. induction outputs as [|o rest IH]; intros w Hf Hg; simpl; [reflexivity|].
  simpl in Hg.
  rewrite Write_fits; [|exact Hf|].
  - apply IH; [reflexivity|]. simpl. rewrite sent_app.
    replace (sent (mkResponse (Some (status w)) (written w) false (client w)))
      with (sent w) by reflexivity.
    rewrite <- Nat.add_assoc. exact Hg.
  - apply (gone_mono _ (sent w + (String.length o + list_sum (map String.length rest))));
      [lia|exact Hg].
Qed.

Section HandlerFacts.

Variable host : string.
Variable io : World.

(** A miss is answered with 404 and the standard text, whatever has become
    of the connection: the text stays within the buffer. *)
Lemma respond_miss (current : string) :
  respond host io current None
    = mkResponse (Some 404%Z) [("404 page not found" ++ String "010" "")%string]
                 false (connection io).
Proof.
  unfold respond, NotFound, Error.
  rewrite Write_fits; [reflexivity|reflexivity|].
  apply gone_small. vm_compute. lia.
Qed.

Lemma handle_miss (m : Store) (current : string) :
  index m current = None ->
  handle host io m current
    = mkResponse (Some 404%Z) [("404 page not found" ++ String "010" "")%string]
                 false (connection io).
Proof. intros H. unfold handle. rewrite H. apply respond_miss. Qed.

(** On a hit the response is what [Execute] leaves of it: when [Execute]
    returns an error the status is fixed and the writer has failed, so
    [http.Error] changes nothing. *)
Lemma respond_hit (current : string) (p : Entry) :
  respond host io current (Some p)
    = (Execute io (newResponse (connection io))
         {| data.Import := host ++ current;
            data.Repo := Repo p; data.Display := Display p |}).1.
Proof.
  unfold respond, Execute.
  set (d := {| data.Import := host ++ current;
               data.Repo := Repo p; data.Display := Display p |}).
  pose proof (walk_error (page io d) (newResponse (connection io))) as He.
  assert (Hs : wroteHeader (walk (newResponse (connection io)) (page io d)).1
               = Some 200%Z) by exact (walk_status _ _ _).
  destruct (walk (newResponse (connection io)) (page io d)) as [w [|]];
    simpl in *; [|reflexivity].
  unfold Error. rewrite (WriteHeader_fixed _ _ _ Hs).
  rewrite (Write_after_failure _ _ _ (He eq_refl) Hs); reflexivity.
Qed.

(** A hit is answered with 200 and the page, as far as the connection has
    taken it: all of it unless the writer has failed, which takes a
    connection that is gone and a page that does not fit the buffer. *)
Lemma respond_hit_page (current : string) (p : Entry) :
  let d := {| data.Import := host ++ current;
              data.Repo := Repo p; data.Display := Display p |} in
  let w := respond host io current (Some p) in
  status w = 200%Z /\
  (exists n, written w = take n (page io d) /\
             (failed w = false -> n = length (page io d))) /\
  (failed w = true ->
     connection io <> None /\
     bufferBeforeChunkingSize < list_sum (map String.length (page io d))).
Proof.
  intros d w. subst w. rewrite respond_hit. fold d. unfold Execute.
  set (w0 := newResponse (connection io)).
  split_ands.
  - unfold status.
    assert (Hs : wroteHeader (walk w0 (page io d)).1 = Some 200%Z)
      by exact (walk_status _ _ _).
    rewrite Hs. reflexivity.
  - destruct (walk_written (page io d) w0) as (n & Hw & _ & Hall).
    exists n. split; [exact Hw|]. intros Hf. apply Hall.
    destruct ((walk w0 (page io d)).2) eqn:E; [|reflexivity].
    rewrite (walk_error _ _ E) in Hf. discriminate Hf.
  - intros Hf.
    assert (Hg : gone (client w0) (sent w0 + list_sum (map String.length (page io d)))
                 = true).
    { destruct (gone (client w0) (sent w0 + list_sum (map String.length (page io d))))
        eqn:Hg; [reflexivity|].
      pose proof (walk_fits (page io d) w0 eq_refl Hg) as Hok.
      rewrite (walk_ok _ _ Hok) in Hf. discriminate Hf. }
    change (client w0) with (connection io) in Hg.
    change (sent w0) with 0 in Hg. rewrite Nat.add_0_l in Hg.
    split.
    + intros Hc. rewrite Hc in Hg. discriminate Hg.
    + destruct (le_lt_dec (list_sum (map String.length (page io d)))
                  bufferBeforeChunkingSize) as [Hle|Hlt]; [|exact Hlt].
      rewrite (gone_small _ _ Hle) in Hg. discriminate Hg.
Qed.

(** The status is 200 or 404: 500 is never sent. *)
Lemma handle_status (m : Store) (current : string) :
  status (handle host io m current) =
  match index m current with
  | Some _ => 200%Z
  | None => 404%Z
  end.
Proof.
  unfold handle. destruct (index m current) as [p|].
  - apply (respond_hit_page current p).
  - rewrite respond_miss. reflexivity.
Qed.

End HandlerFacts.

(** C8 (the code does not do this).  [/big] is a key of [m] whose page
    does not fit the response buffer, and the client has gone away.  The
    first write of the template fixes the status, 200; the write of the
    display fails and [Execute] returns the error.  [handle] then calls
    [http.Error(w, ..., 500)]: the status stays 200, and the writer, which
    has failed, refuses the generic text.  The response is 200 with the
    page up to the display, not 500 with the generic text. *)
Theorem C8_render_failure_keeps_200 :
  index example.m_big "/big"
    = Some (mkEntry "https://example.org/big.git" example.long_display) /\
  (Execute (example.disk example.foo_yaml example.breaks)
     (newResponse (connection (example.disk example.foo_yaml example.breaks)))
     {| data.Import := "example.com/big";
        data.Repo := "https://example.org/big.git";
        data.Display := example.long_display |}).2 = true /\
  status (handle "example.com" (example.disk example.foo_yaml example.breaks)
            example.m_big "/big") = 200%Z /\
  written (handle "example.com" (example.disk example.foo_yaml example.breaks)
             example.m_big "/big")
    = take 7 (page (example.disk example.foo_yaml example.breaks)
                {| data.Import := "example.com/big";
                   data.Repo := "https://example.org/big.git";
                   data.Display := example.long_display |}) /\
  existsb (String.eqb ("cannot render the page" ++ nl))
    (written (handle "example.com" (example.disk example.foo_yaml example.breaks)
                example.m_big "/big")) = false.
Proof. split_ands; vm_compute; reflexivity. Qed.

(** C10.  A request path begins with [/]; a key [k] of the configuration
    that does not is never the key [handle] looks up, the answer to every
    request is the same with [k] deleted from [m], and when no key of [m]
    begins with [/] every request is answered with 404. *)
Theorem C10_key_without_slash_unreachable (host : string) (io : World)
    (m : Store) (current k : string) :
  strings.HasPrefix current "/" = true ->
  strings.HasPrefix k "/" = false ->
  current <> k /\
  handle host io (delete_key k m) current = handle host io m current /\
  ((forall k', is_Some (index m k') -> strings.HasPrefix k' "/" = false) ->
   status (handle host io m current) = 404%Z).
Proof.
  intros Hc Hk.
  assert (Hne : current <> k) by (intros ->; congruence).
  split; [exact Hne|]. split.
  - unfold handle. f_equal. destruct m as [mp|]; simpl; [|reflexivity].
    apply lookup_delete_ne. congruence.
  - intros Hall. rewrite handle_miss; [reflexivity|].
    destruct (index m current) as [e|] eqn:E; [|reflexivity].
    specialize (Hall current (ex_intro _ e E)). congruence.
Qed.

(** C10 at a configuration whose only key is [foo]: the request for
    [/foo] is answered with 404. *)
Lemma C10_witness :
  strings.HasPrefix "/foo" "/" = true /\
  strings.HasPrefix "foo" "/" = false /\
  "/foo" <> "foo" /\
  status (handle "example.com" (example.disk example.foo_yaml example.renders)
            (Some {[ "foo" := mkEntry "https://github.com/org/foo" "" ]}) "/foo")
    = 404%Z.
Proof.
  pose proof (C10_key_without_slash_unreachable "example.com"
                (example.disk example.foo_yaml example.renders)
                (Some {[ "foo" := mkEntry "https://github.com/org/foo" "" ]})
                "/foo" "foo" eq_refl eq_refl) as (H1 & _ & H3).
  split; [reflexivity|]. split; [reflexivity|]. split; [exact H1|].
  apply H3. intros k' [e He]. simpl in He.
  apply lookup_singleton_Some in He as [<- _]. reflexivity.
Defined.

(** ** Goroutines *)

(** Closes a goal about the counts once the state of the writer is known. *)
Ltac by_counting Hw :=
  simpl in *; rewrite ?Hw in *; simpl in *;
  repeat case_decide; try congruence; try lia.

Section Counting.

Variable P : goroutine -> bool.

Lemma count_app (l tl : list goroutine) : count P (l ++ tl) = count P l + count P tl.
Proof. induction l as [|g l IH]; simpl; [reflexivity|]. rewrite IH. lia. Qed.

Lemma count_insert (l : list goroutine) (i : nat) (g g' : goroutine) :
  l !! i = Some g ->
  count P (<[i := g']> l) + (if P g then 1 else 0)
  = count P l + (if P g' then 1 else 0).
Proof.
  revert i. induction l as [|x l IH]; intros [|i] H; simpl in *; try discriminate.
  - inversion H; subst. lia.
  - specialize (IH i H). lia.
Qed.

Lemma count_pos (l : list goroutine) (i : nat) (g : goroutine) :
  l !! i = Some g -> P g = true -> 0 < count P l.
Proof.
  revert i. induction l as [|x l IH]; intros [|i] H Hg; simpl in *; try discriminate.
  - inversion H; subst. rewrite Hg. lia.
  - specialize (IH i H Hg). lia.
Qed.

Lemma count_two (l : list goroutine) (i j : nat) (g x : goroutine) :
  l !! i = Some g -> l !! j = Some x -> i <> j ->
  P g = true -> P x = true -> 2 <= count P l.
Proof.
  revert i j. induction l as [|y l IH]; intros [|i] [|j] Hi Hj Hne Hg Hx;
    simpl in *; try discriminate; try congruence.
  - inversion Hi; subst. rewrite Hg. pose proof (count_pos _ _ _ Hj Hx). lia.
  - inversion Hj; subst. rewrite Hx. pose proof (count_pos _ _ _ Hi Hg). lia.
  - assert (i <> j) by congruence. specialize (IH i j Hi Hj H Hg Hx). lia.
Qed.

End Counting.

Section GoroutineFacts.

Variable host : string.
Variable path : string.

Lemma Inv_initial : Inv host initial.
Proof.
  constructor; simpl; try reflexivity; try done.
  intros [|j] x H; simpl in H; [|discriminate].
  inversion H; subst. repeat split; intros; discriminate.
Qed.

Lemma finish_decode (sets : list (string * Entry)) (m : Store) :
  foldl (fun cur kv => Some (SetMapIndex (MakeIfNil cur) kv)) (Some (MakeIfNil m)) sets
  = Some (foldl SetMapIndex (MakeIfNil m) sets).
Proof.
  generalize (MakeIfNil m) as mp. induction sets as [|kv sets IH]; intros mp; simpl.
  - reflexivity.
  - apply IH.
Qed.

(** The decoder's first step starts one whole critical section. *)
Lemma critical_start (io : World) (vanity : bytes) (m : Store) :
  match yaml io vanity with
  | SyntaxError => finish (AtUnlock (Some ErrYamlSyntax)) m
  | Decoded Untouched terrors => finish (InUnmarshal [] terrors) m
  | Decoded SetNil terrors => finish (InUnmarshal [] terrors) None
  | Decoded (StoreEntries sets) terrors =>
      finish (InUnmarshal sets terrors) (Some (MakeIfNil m))
  end = critical io vanity m.
Proof.
  unfold critical, Unmarshal.
  destruct (yaml io vanity) as [|[| |sets] [|]]; simpl; try reflexivity.
  - apply finish_decode.
  - rewrite finish_decode. reflexivity.
Qed.

Lemma goroutine_ok_grow (m m' c c' : Store) (unl : list Store) (g : Store)
    (x : goroutine) :
  in_critical x = false ->
  goroutine_ok host m c unl x -> goroutine_ok host m' c' (g :: unl) x.
Proof.
  intros Hx (H1 & H2 & H3). split; [|split].
  - intros pc Hpc Hl. unfold in_critical in Hx. rewrite Hpc in Hx. congruence.
  - intros current pc p -> Hp. destruct (H2 _ _ _ eq_refl Hp) as (g0 & Hin & ->).
    exists g0. split; [|reflexivity]. simpl. right. exact Hin.
  - exact H3.
Qed.

Lemma goroutine_ok_m (m m' c : Store) (unl : list Store) (x : goroutine) :
  in_critical x = false ->
  goroutine_ok host m c unl x -> goroutine_ok host m' c unl x.
Proof.
  intros Hx (H1 & H2 & H3). split; [|split]; [|exact H2|exact H3].
  intros pc Hpc Hl. unfold in_critical in Hx. rewrite Hpc in Hx. congruence.
Qed.

(** A goroutine that is outside the lock steps to a place outside the
    lock, and goroutines may be started: nothing that the lock guards
    changes. *)
Lemma Inv_neutral (s : state) (i : nat) (g g' : goroutine) (tl : list goroutine)
    (sg nt rn : bool) :
  Inv host s ->
  pool s !! i = Some g ->
  in_read g' = in_read g ->
  in_critical g' = in_critical g ->
  in_lockwait g' = in_lockwait g ->
  count in_read tl = 0 -> count in_critical tl = 0 -> count in_lockwait tl = 0 ->
  goroutine_ok host (m_now s) (committed s) (unlocked s) g' ->
  (forall x, x ∈ tl -> goroutine_ok host (m_now s) (committed s) (unlocked s) x) ->
  Inv host (mkState (m_now s) (mutex s) (<[i := g']> (pool s) ++ tl) sg nt rn (unlocked s)).
Proof.
  intros [Hr Ha Hp He Hq Hg Hpool] Hi Er Ec El Tr Tc Tl Hg' Htl.
  constructor; simpl; try assumption.
  - rewrite count_app, Tr. pose proof (count_insert in_read _ _ _ g' Hi) as H.
    rewrite Er in H. lia.
  - rewrite count_app, Tc. pose proof (count_insert in_critical _ _ _ g' Hi) as H.
    rewrite Ec in H. lia.
  - rewrite count_app, Tl. pose proof (count_insert in_lockwait _ _ _ g' Hi) as H.
    rewrite El in H. lia.
  - intros j x Hj. apply lookup_app_Some in Hj as [Hj|[_ Hj]].
    + apply list_lookup_insert_Some in Hj as [(-> & -> & _)|[_ Hj]].
      * exact Hg'.
      * exact (Hpool _ _ Hj).
    + apply Htl. eapply list_elem_of_lookup_2. exact Hj.
Qed.


Lemma in_critical_pc (g : goroutine) (pc : load_pc) :
  loader_pc g = Some pc -> in_critical g = holds_lock pc.
Proof. intros H. unfold in_critical. rewrite H. reflexivity. Qed.

Lemma in_lockwait_pc (g : goroutine) (pc : load_pc) :
  loader_pc g = Some pc ->
  in_lockwait g = match pc with AtLockWait _ => true | _ => false end.
Proof. intros H. unfold in_lockwait. rewrite H. reflexivity. Qed.

Lemma in_read_loader (g : goroutine) (pc : load_pc) :
  loader_pc g = Some pc -> in_read g = false.
Proof. destruct g as [| | |c hpc]; try reflexivity. discriminate. Qed.

(** A step of the goroutine that holds the write lock, short of
    [Unlock]. *)
Lemma Inv_critical (s : state) (i : nat) (g g' : goroutine) (pc' : load_pc)
    (m' : Store) :
  Inv host s ->
  pool s !! i = Some g ->
  in_critical g = true ->
  loader_pc g' = Some pc' ->
  holds_lock pc' = true ->
  in_progress pc' m' (committed s) ->
  Inv host (set_goroutine s i g' m' (mutex s) (unlocked s)).
Proof.
  intros [Hr Ha Hp He Hq Hg Hpool] Hi Hc Hpc' Hl' Hprog.
  assert (Hw : writer (mutex s) = WActive).
  { pose proof (count_pos in_critical _ _ _ Hi Hc).
    destruct (decide (writer (mutex s) = WActive)); [assumption|lia]. }
  assert (Hgr : in_read g = false).
  { destruct g as [| | |c pc]; try reflexivity. discriminate. }
  assert (Hgl : in_lockwait g = false).
  { unfold in_critical, in_lockwait in *.
    destruct (loader_pc g) as [[]|]; try reflexivity; discriminate. }
  assert (Hc' : in_critical g' = true) by (unfold in_critical; rewrite Hpc'; exact Hl').
  assert (Hr' : in_read g' = false).
  { destruct g' as [| | |c pc]; try reflexivity. discriminate. }
  assert (Hl1 : in_lockwait g' = false).
  { unfold in_lockwait. rewrite Hpc'. destruct pc'; try reflexivity; discriminate. }
  unfold set_goroutine. constructor; simpl; try assumption.
  - pose proof (count_insert in_read _ _ _ g' Hi) as H.
    rewrite Hgr, Hr' in H. lia.
  - pose proof (count_insert in_critical _ _ _ g' Hi) as H.
    rewrite Hc, Hc' in H. lia.
  - pose proof (count_insert in_lockwait _ _ _ g' Hi) as H.
    rewrite Hgl, Hl1 in H. lia.
  - intros Hn. contradiction.
  - intros j x Hj.
    apply list_lookup_insert_Some in Hj as [(-> & -> & _)|[Hne Hj]].
    + split; [|split].
      * intros pc Hpc _. rewrite Hpc' in Hpc. inversion Hpc; subst. exact Hprog.
      * intros current pc p ->. discriminate.
      * intros current p w ->. discriminate.
    + apply goroutine_ok_m with (m := m_now s); [|exact (Hpool _ _ Hj)].
      destruct (in_critical x) eqn:Hx; [|reflexivity].
      pose proof (count_two in_critical _ _ _ _ _ Hi Hj Hne Hc Hx).
      by_counting Hw.
Qed.

(** [Lock], first half: the writer announces itself. *)
Lemma Inv_lock (s : state) (i : nat) (g g' : goroutine) (vanity : bytes) :
  Inv host s ->
  pool s !! i = Some g ->
  loader_pc g = Some (AtLock vanity) ->
  loader_pc g' = Some (AtLockWait vanity) ->
  writer (mutex s) = WFree ->
  Inv host (set_goroutine s i g' (m_now s)
              (mkMutex WPending (readerCount (mutex s))) (unlocked s)).
Proof.
  intros [Hr Ha Hp He Hq Hg Hpool] Hi Hpc Hpc' Hw.
  pose proof (in_read_loader _ _ Hpc) as Hgr.
  pose proof (in_read_loader _ _ Hpc') as Hr'.
  unfold set_goroutine. constructor; simpl.
  - pose proof (count_insert in_read _ _ _ g' Hi) as H.
    rewrite Hgr, Hr' in H. lia.
  - pose proof (count_insert in_critical _ _ _ g' Hi) as H.
    rewrite (in_critical_pc _ _ Hpc), (in_critical_pc _ _ Hpc') in H.
    by_counting Hw.
  - pose proof (count_insert in_lockwait _ _ _ g' Hi) as H.
    rewrite (in_lockwait_pc _ _ Hpc), (in_lockwait_pc _ _ Hpc') in H.
    by_counting Hw.
  - discriminate.
  - intros _. apply Hq. rewrite Hw. discriminate.
  - assumption.
  - intros j x Hj.
    apply list_lookup_insert_Some in Hj as [(-> & -> & _)|[Hne Hj]].
    + split; [|split].
      * intros pc Hpc1. rewrite Hpc' in Hpc1. inversion Hpc1; subst. discriminate.
      * intros current pc p ->. discriminate.
      * intros current p w ->. discriminate.
    + exact (Hpool _ _ Hj).
Qed.

(** [Lock], second half: the readers have left, the writer has the lock. *)
Lemma Inv_lock_acquired (s : state) (i : nat) (g g' : goroutine) (vanity : bytes) :
  Inv host s ->
  pool s !! i = Some g ->
  loader_pc g = Some (AtLockWait vanity) ->
  loader_pc g' = Some (AtUnmarshal vanity) ->
  readerCount (mutex s) = 0 ->
  Inv host (set_goroutine s i g' (m_now s) (mkMutex WActive 0) (unlocked s)).
Proof.
  intros [Hr Ha Hp He Hq Hg Hpool] Hi Hpc Hpc' Hrc.
  pose proof (in_read_loader _ _ Hpc) as Hgr.
  pose proof (in_read_loader _ _ Hpc') as Hr'.
  assert (Hgl : in_lockwait g = true) by (rewrite (in_lockwait_pc _ _ Hpc); reflexivity).
  assert (Hw : writer (mutex s) = WPending).
  { pose proof (count_pos in_lockwait _ _ _ Hi Hgl).
    destruct (decide (writer (mutex s) = WPending)); [assumption|lia]. }
  unfold set_goroutine. constructor; simpl.
  - pose proof (count_insert in_read _ _ _ g' Hi) as H.
    rewrite Hgr, Hr' in H. lia.
  - pose proof (count_insert in_critical _ _ _ g' Hi) as H.
    rewrite (in_critical_pc _ _ Hpc), (in_critical_pc _ _ Hpc') in H.
    by_counting Hw.
  - pose proof (count_insert in_lockwait _ _ _ g' Hi) as H.
    rewrite (in_lockwait_pc _ _ Hpc), (in_lockwait_pc _ _ Hpc') in H.
    by_counting Hw.
  - reflexivity.
  - intros Hn. contradiction.
  - assumption.
  - assert (Hm : m_now s = committed s) by (apply Hq; rewrite Hw; discriminate).
    intros j x Hj.
    apply list_lookup_insert_Some in Hj as [(-> & -> & _)|[Hne Hj]].
    + split; [|split].
      * intros pc Hpc1 _. rewrite Hpc' in Hpc1. inversion Hpc1; subst. exact Hm.
      * intros current pc p ->. discriminate.
      * intros current p w ->. discriminate.
    + exact (Hpool _ _ Hj).
Qed.

(** [Unlock]: the value of [m] becomes the latest generation. *)
Lemma Inv_unlock (s : state) (i : nat) (g g' : goroutine) (err err' : option error) :
  Inv host s ->
  pool s !! i = Some g ->
  loader_pc g = Some (AtUnlock err) ->
  loader_pc g' = Some (Returned err') ->
  Inv host (set_goroutine s i g' (m_now s)
              (mkMutex WFree (readerCount (mutex s))) (m_now s :: unlocked s)).
Proof.
  intros [Hr Ha Hp He Hq Hg Hpool] Hi Hpc Hpc'.
  pose proof (in_read_loader _ _ Hpc) as Hgr.
  pose proof (in_read_loader _ _ Hpc') as Hr'.
  assert (Hc : in_critical g = true) by (rewrite (in_critical_pc _ _ Hpc); reflexivity).
  assert (Hw : writer (mutex s) = WActive).
  { pose proof (count_pos in_critical _ _ _ Hi Hc).
    destruct (decide (writer (mutex s) = WActive)); [assumption|lia]. }
  unfold set_goroutine. constructor; simpl.
  - pose proof (count_insert in_read _ _ _ g' Hi) as H.
    rewrite Hgr, Hr' in H. lia.
  - pose proof (count_insert in_critical _ _ _ g' Hi) as H.
    rewrite (in_critical_pc _ _ Hpc), (in_critical_pc _ _ Hpc') in H.
    by_counting Hw.
  - pose proof (count_insert in_lockwait _ _ _ g' Hi) as H.
    rewrite (in_lockwait_pc _ _ Hpc), (in_lockwait_pc _ _ Hpc') in H.
    by_counting Hw.
  - discriminate.
  - reflexivity.
  - split; [|assumption].
    destruct (Hpool _ _ Hi) as (H1 & _).
    destruct (H1 _ Hpc eq_refl) as (io & vanity & Hf). simpl in Hf.
    exists io, vanity. exact Hf.
  - intros j x Hj.
    apply list_lookup_insert_Some in Hj as [(-> & -> & _)|[Hne Hj]].
    + split; [|split].
      * intros pc Hpc1. rewrite Hpc' in Hpc1. inversion Hpc1; subst. discriminate.
      * intros current pc p ->. discriminate.
      * intros current p w ->. discriminate.
    + apply goroutine_ok_grow with (m := m_now s) (c := committed s);
        [|exact (Hpool _ _ Hj)].
      destruct (in_critical x) eqn:Hx; [|reflexivity].
      pose proof (count_two in_critical _ _ _ _ _ Hi Hj Hne Hc Hx).
      by_counting Hw.
Qed.

(** The invariant does not read [sigs], [notified] and [running]. *)
Lemma Inv_ext (s s' : state) :
  m_now s' = m_now s -> mutex s' = mutex s -> pool s' = pool s ->
  unlocked s' = unlocked s -> Inv host s -> Inv host s'.
Proof.
  destruct s, s'; simpl. intros -> -> -> -> [Hr Ha Hp He Hq Hg Hpool].
  constructor; assumption.
Qed.

Lemma Inv_started (s : state) (tl : list goroutine) (sg nt rn : bool) :
  Inv host s ->
  count in_read tl = 0 -> count in_critical tl = 0 -> count in_lockwait tl = 0 ->
  (forall x, x ∈ tl -> goroutine_ok host (m_now s) (committed s) (unlocked s) x) ->
  Inv host (mkState (m_now s) (mutex s) (pool s ++ tl) sg nt rn (unlocked s)).
Proof.
  intros [Hr Ha Hp He Hq Hg Hpool] Tr Tc Tl Htl.
  constructor; simpl; try assumption.
  - rewrite count_app, Tr. lia.
  - rewrite count_app, Tc. lia.
  - rewrite count_app, Tl. lia.
  - intros j x Hj. apply lookup_app_Some in Hj as [Hj|[_ Hj]].
    + exact (Hpool _ _ Hj).
    + apply Htl. eapply list_elem_of_lookup_2. exact Hj.
Qed.

Lemma Inv_goto (s : state) (i : nat) (g g' : goroutine) :
  Inv host s ->
  pool s !! i = Some g ->
  in_read g' = in_read g ->
  in_critical g' = in_critical g ->
  in_lockwait g' = in_lockwait g ->
  goroutine_ok host (m_now s) (committed s) (unlocked s) g' ->
  Inv host (goto s i g').
Proof.
  intros HI Hi Er Ec El Hg'.
  pose proof (Inv_neutral s i g g' [] (sigs s) (notified s) (running s)
                HI Hi Er Ec El eq_refl eq_refl eq_refl Hg') as H.
  eapply Inv_ext; [| | | |apply H]; simpl; try reflexivity.
  - rewrite app_nil_r. reflexivity.
  - intros x Hx. inversion Hx.
Qed.

(** A goroutine that is not in a call of [handle] and holds no lock. *)
Lemma goroutine_ok_idle (m c : Store) (unl : list Store) (x : goroutine) :
  in_critical x = false ->
  (forall current pc, x <> GHandle current pc) ->
  goroutine_ok host m c unl x.
Proof.
  intros Hc Hh. split; [|split].
  - intros pc Hpc Hl. rewrite (in_critical_pc _ _ Hpc) in Hc. congruence.
  - intros current pc p ->. exfalso. eapply Hh. reflexivity.
  - intros current p w ->. exfalso. eapply Hh. reflexivity.
Qed.

Lemma committed_generation (s : state) : committed s ∈ unlocked s ++ [None].
Proof.
  unfold committed. destruct (unlocked s) as [|g unl]; simpl.
  - apply list_elem_of_here.
  - apply list_elem_of_here.
Qed.

(** [RLock] *)
Lemma Inv_rlock (s : state) (i : nat) (current : string) :
  Inv host s ->
  pool s !! i = Some (GHandle current AtRLock) ->
  writer (mutex s) = WFree ->
  Inv host (set_goroutine s i (GHandle current AtIndex) (m_now s)
              (mkMutex WFree (S (readerCount (mutex s)))) (unlocked s)).
Proof.
  intros [Hr Ha Hp He Hq Hg Hpool] Hi Hw.
  unfold set_goroutine. constructor; simpl.
  - pose proof (count_insert in_read _ _ _ (GHandle current AtIndex) Hi) as H.
    simpl in H. lia.
  - pose proof (count_insert in_critical _ _ _ (GHandle current AtIndex) Hi) as H.
    by_counting Hw.
  - pose proof (count_insert in_lockwait _ _ _ (GHandle current AtIndex) Hi) as H.
    by_counting Hw.
  - discriminate.
  - intros _. apply Hq. rewrite Hw. discriminate.
  - assumption.
  - intros j x Hj.
    apply list_lookup_insert_Some in Hj as [(-> & <- & _)|[Hne Hj]].
    + split; [|split].
      * intros pc Hpc. discriminate.
      * intros c pc p Heq. inversion Heq; subst. discriminate.
      * intros c p w Heq. discriminate.
    + exact (Hpool _ _ Hj).
Qed.

(** [RUnlock] *)
Lemma Inv_runlock (s : state) (i : nat) (current : string) (p : option Entry) :
  Inv host s ->
  pool s !! i = Some (GHandle current (AtRUnlock p)) ->
  Inv host (set_goroutine s i (GHandle current (AtRespond p)) (m_now s)
              (mkMutex (writer (mutex s)) (pred (readerCount (mutex s)))) (unlocked s)).
Proof.
  intros [Hr Ha Hp He Hq Hg Hpool] Hi.
  unfold set_goroutine. constructor; simpl.
  - pose proof (count_insert in_read _ _ _ (GHandle current (AtRespond p)) Hi) as H.
    simpl in H. lia.
  - pose proof (count_insert in_critical _ _ _ (GHandle current (AtRespond p)) Hi) as H.
    simpl in H. lia.
  - pose proof (count_insert in_lockwait _ _ _ (GHandle current (AtRespond p)) Hi) as H.
    simpl in H. lia.
  - intros Hw. rewrite (He Hw). reflexivity.
  - assumption.
  - assumption.
  - intros j x Hj.
    apply list_lookup_insert_Some in Hj as [(-> & <- & _)|[Hne Hj]].
    + destruct (Hpool _ _ Hi) as (_ & H2 & _).
      split; [|split].
      * intros pc Hpc. discriminate.
      * intros c pc q Heq Hq'. inversion Heq; subst. simpl in Hq'.
        inversion Hq'; subst. apply (H2 _ _ _ eq_refl eq_refl).
      * intros c q w Heq. discriminate.
    + exact (Hpool _ _ Hj).
Qed.

(** One step of a call of [handle]. *)
Lemma handle_step_Inv (io : World) (s : state) (i : nat) (current : string)
    (pc pc' : handle_pc) (m : Store) (mu : RWMutex) (unl : list Store) :
  Inv host s ->
  pool s !! i = Some (GHandle current pc) ->
  handle_step host io current (m_now s) (mutex s) (unlocked s) pc = Next m mu unl pc' ->
  Inv host (set_goroutine s i (GHandle current pc') m mu unl).
Proof.
  intros HI Hi Hstep. destruct pc as [| |p|p|p w]; simpl in Hstep.
  - destruct (writer (mutex s)) eqn:Hw; try discriminate.
    inversion Hstep; subst. apply Inv_rlock; assumption.
  - inversion Hstep; subst.
    apply (Inv_goto s i _ _ HI Hi); try reflexivity.
    destruct HI as [Hr Ha Hp He Hq Hg Hpool].
    assert (Hm : m_now s = committed s).
    { apply Hq. intros Hw. specialize (He Hw).
      pose proof (count_pos in_read _ _ _ Hi eq_refl). lia. }
    split; [|split].
    + intros pc Hpc. discriminate.
    + intros c pc p Heq Hp'. inversion Heq; subst. simpl in Hp'.
      inversion Hp'; subst. exists (committed s).
      split; [apply committed_generation|]. rewrite Hm. reflexivity.
    + intros c p w Heq. discriminate.
  - inversion Hstep; subst. apply Inv_runlock; assumption.
  - inversion Hstep; subst.
    apply (Inv_goto s i _ _ HI Hi); try reflexivity.
    destruct HI as [Hr Ha Hp He Hq Hg Hpool].
    destruct (Hpool _ _ Hi) as (_ & H2 & _).
    split; [|split].
    + intros pc Hpc. discriminate.
    + intros c pc q Heq Hq'. inversion Heq; subst. simpl in Hq'.
      inversion Hq'; subst. apply (H2 _ _ _ eq_refl eq_refl).
    + intros c q w Heq. inversion Heq; subst. exists io. reflexivity.
  - discriminate.
Qed.

(** One step of one of the two refreshing goroutines. *)
Lemma loop_step_Inv (io : World) (s s' : state) (i : nat)
    (wrap : option load_pc -> goroutine) (pc : load_pc) :
  wrap = GSignal \/ wrap = GRefresh ->
  Inv host s ->
  pool s !! i = Some (wrap (Some pc)) ->
  loop_step path io s i wrap pc = Some s' ->
  Inv host s'.
Proof.
  intros Hwrap HI Hi Hstep.
  assert (Hpc : forall o, loader_pc (wrap o) = o)
    by (destruct Hwrap as [-> | ->]; reflexivity).
  assert (Hnh : forall o current hpc, wrap o <> GHandle current hpc)
    by (destruct Hwrap as [-> | ->]; discriminate).
  assert (Hidle : forall pc', holds_lock pc' = false ->
            goroutine_ok host (m_now s) (committed s) (unlocked s) (wrap (Some pc'))).
  { intros pc' Hl. apply goroutine_ok_idle; [|apply Hnh].
    rewrite (in_critical_pc _ _ (Hpc _)). exact Hl. }
  assert (Hprog : holds_lock pc = true -> in_progress pc (m_now s) (committed s)).
  { intros Hl. destruct HI as [_ _ _ _ _ _ Hpool].
    destruct (Hpool _ _ Hi) as (H1 & _). apply H1; [apply Hpc|exact Hl]. }
  destruct pc as [|vanity|vanity|vanity|[|kv sets] terrors| |err|err];
    simpl in Hstep.
  - (* readFile *)
    destruct (readFile path io) as [[vanity [err|]]|]; inversion Hstep; subst.
    + apply (Inv_goto s i _ _ HI Hi);
        rewrite ?(in_read_loader _ _ (Hpc _)), ?(in_critical_pc _ _ (Hpc _)),
                ?(in_lockwait_pc _ _ (Hpc _)); try reflexivity.
      apply Hidle. reflexivity.
    + apply (Inv_goto s i _ _ HI Hi);
        rewrite ?(in_read_loader _ _ (Hpc _)), ?(in_critical_pc _ _ (Hpc _)),
                ?(in_lockwait_pc _ _ (Hpc _)); try reflexivity.
      apply Hidle. reflexivity.
    + eapply Inv_ext; [| | | |exact HI]; reflexivity.
  - (* Lock *)
    destruct (writer (mutex s)) eqn:Hw; inversion Hstep; subst.
    eapply Inv_lock; [exact HI|exact Hi|apply Hpc|apply Hpc|exact Hw].
  - (* Lock, readers leaving *)
    destruct (readerCount (mutex s)) eqn:Hrc; inversion Hstep; subst.
    eapply Inv_lock_acquired; [exact HI|exact Hi|apply Hpc|apply Hpc|exact Hrc].
  - (* Unmarshal *)
    specialize (Hprog eq_refl). simpl in Hprog.
    pose proof (critical_start io vanity (m_now s)) as Hcs.
    assert (Hc : in_critical (wrap (Some (AtUnmarshal vanity))) = true)
      by (rewrite (in_critical_pc _ _ (Hpc _)); reflexivity).
    destruct (yaml io vanity) as [|[| |sets] terrors]; inversion Hstep; subst;
      (eapply Inv_critical; [exact HI|exact Hi|exact Hc|apply Hpc|reflexivity|]);
      exists io, vanity; rewrite <- Hprog; exact Hcs.
  - (* the decoder has stored everything *)
    specialize (Hprog eq_refl). simpl in Hprog.
    assert (Hc : in_critical (wrap (Some (InUnmarshal [] terrors))) = true)
      by (rewrite (in_critical_pc _ _ (Hpc _)); reflexivity).
    destruct terrors; inversion Hstep; subst;
      (eapply Inv_critical; [exact HI|exact Hi|exact Hc|apply Hpc|reflexivity|]);
      exact Hprog.
  - (* the decoder stores an entry *)
    specialize (Hprog eq_refl). simpl in Hprog.
    assert (Hc : in_critical (wrap (Some (InUnmarshal (kv :: sets) terrors))) = true)
      by (rewrite (in_critical_pc _ _ (Hpc _)); reflexivity).
    inversion Hstep; subst.
    eapply Inv_critical; [exact HI|exact Hi|exact Hc|apply Hpc|reflexivity|].
    exact Hprog.
  - (* range m *)
    specialize (Hprog eq_refl). simpl in Hprog.
    assert (Hc : in_critical (wrap (Some AtRange)) = true)
      by (rewrite (in_critical_pc _ _ (Hpc _)); reflexivity).
    inversion Hstep; subst.
    eapply Inv_critical; [exact HI|exact Hi|exact Hc|apply Hpc|reflexivity|].
    exact Hprog.
  - (* Unlock *)
    inversion Hstep; subst.
    eapply Inv_unlock; [exact HI|exact Hi|apply Hpc|apply Hpc].
  - (* back in the loop *)
    inversion Hstep; subst.
    apply (Inv_goto s i _ _ HI Hi);
      rewrite ?(in_read_loader _ _ (Hpc _)), ?(in_critical_pc _ _ (Hpc _)),
              ?(in_lockwait_pc _ _ (Hpc _)); try reflexivity.
    + destruct Hwrap as [-> | ->]; reflexivity.
    + destruct Hwrap as [-> | ->]; reflexivity.
    + destruct Hwrap as [-> | ->]; reflexivity.
    + apply goroutine_ok_idle; [|apply Hnh].
      destruct Hwrap as [-> | ->]; reflexivity.
Qed.

Lemma main_ok (m c : Store) (unl : list Store) (pc : main_pc) :
  goroutine_ok host m c unl (GMain pc).
Proof. apply goroutine_ok_idle; [reflexivity|discriminate]. Qed.

(** One step of any goroutine. *)
Lemma run_Inv (io : World) (s s' : state) (i : nat) :
  Inv host s -> run host path io s i = Some s' -> Inv host s'.
Proof.
  intros HI Hrun. unfold run in Hrun.
  destruct (pool s !! i) as [[pc|[pc|]|[pc|]|current pc]|] eqn:Hi; try discriminate.
  - (* main *)
    destruct pc; try discriminate.
    + inversion Hrun; subst.
      apply (Inv_goto s i _ _ HI Hi); try reflexivity. apply main_ok.
    + inversion Hrun; subst. simpl.
      apply (Inv_neutral s i _ _ _ _ _ _ HI Hi); try reflexivity; [apply main_ok|].
      intros x Hx. apply list_elem_of_singleton in Hx as ->.
      apply goroutine_ok_idle; [reflexivity|discriminate].
    + inversion Hrun; subst. unfold spawn.
      apply (Inv_neutral s i _ _ _ _ _ _ HI Hi); try reflexivity; [apply main_ok|].
      intros x Hx. apply list_elem_of_singleton in Hx as ->.
      apply goroutine_ok_idle; [reflexivity|discriminate].
    + destruct (String.eqb host ""); inversion Hrun; subst.
      * eapply Inv_ext; [| | | |exact HI]; reflexivity.
      * apply (Inv_goto s i _ _ HI Hi); try reflexivity. apply main_ok.
    + inversion Hrun; subst.
      apply (Inv_goto s i _ _ HI Hi); try reflexivity. apply main_ok.
    + inversion Hrun; subst.
      apply (Inv_goto s i _ _ HI Hi); try reflexivity. apply main_ok.
  - (* the signal goroutine, in loadYaml *)
    eapply loop_step_Inv; [left; reflexivity|exact HI|exact Hi|exact Hrun].
  - (* the signal goroutine, receiving *)
    destruct (sigs s); inversion Hrun; subst.
    eapply Inv_ext; [| | | |apply (Inv_goto s i _ (GSignal (Some AtReadFile)) HI Hi)];
      try reflexivity.
    apply goroutine_ok_idle; [reflexivity|discriminate].
  - (* the refresh goroutine, in loadYaml *)
    eapply loop_step_Inv; [right; reflexivity|exact HI|exact Hi|exact Hrun].
  - (* the refresh goroutine, waking up *)
    inversion Hrun; subst.
    apply (Inv_goto s i _ _ HI Hi); try reflexivity.
    apply goroutine_ok_idle; [reflexivity|discriminate].
  - (* handle *)
    destruct (handle_step host io current (m_now s) (mutex s) (unlocked s) pc)
      as [| |m mu unl pc'] eqn:Hstep; inversion Hrun; subst.
    eapply handle_step_Inv; [exact HI|exact Hi|exact Hstep].
Qed.

(** What SIGHUP does. *)
Lemma Sighup_cases (s s' : state) :
  exec host path s Sighup = Some s' ->
  running s = true /\
  ((notified s = false /\ s' = exit s) \/
   (notified s = true /\ sigs s = false /\ pool s !! 1%nat = Some (GSignal None) /\
    s' = goto s 1 (GSignal (Some AtReadFile))) \/
   (notified s = true /\
    s' = mkState (m_now s) (mutex s) (pool s) true (notified s) (running s)
                 (unlocked s))).
Proof.
  unfold exec. destruct (running s); [|discriminate].
  intros Hx. split; [reflexivity|].
  destruct (notified s).
  - destruct (sigs s).
    + inversion Hx. right. right. split; reflexivity.
    + destruct (pool s !! 1%nat) as [[pc|[pc|]|pc|c pc]|] eqn:E;
        inversion Hx;
        try (right; right; split; reflexivity).
      right. left. split_ands; reflexivity.
  - inversion Hx. left. split; reflexivity.
Qed.

Lemma exec_Inv (s s' : state) (ev : event) :
  Inv host s -> exec host path s ev = Some s' -> Inv host s'.
Proof.
  intros HI Hexec.
  destruct ev as [i io|current| |];
    [| |destruct (Sighup_cases _ _ Hexec)
          as (_ & [(_ & ->)|[(_ & _ & H1 & ->)|(_ & ->)]])|];
    unfold exec in Hexec; (destruct (running s); [|discriminate]).
  - eapply run_Inv; [exact HI|exact Hexec].
  - destruct (serving s); inversion Hexec; subst.
    apply Inv_started; try assumption; try reflexivity.
    intros x Hx. apply list_elem_of_singleton in Hx as ->.
    split; [|split].
    + intros pc Hpc. discriminate.
    + intros c pc p Heq. inversion Heq; subst. discriminate.
    + intros c p w Heq. discriminate.
  - eapply Inv_ext; [| | | |exact HI]; reflexivity.
  - apply (Inv_goto s 1 _ _ HI H1); try reflexivity.
    apply goroutine_ok_idle; [reflexivity|discriminate].
  - eapply Inv_ext; [| | | |exact HI]; reflexivity.
  - destruct (listening s); inversion Hexec; subst.
    eapply Inv_ext; [| | | |exact HI]; reflexivity.
Qed.

Lemma execs_Inv (evs : list event) (s s' : state) :
  Inv host s -> execs host path s evs = Some s' -> Inv host s'.
Proof.
  revert s. induction evs as [|ev evs IH]; intros s HI H; simpl in H.
  - inversion H; subst. exact HI.
  - destruct (exec host path s ev) as [s1|] eqn:E; [|discriminate].
    apply (IH s1); [|exact H]. eapply exec_Inv; [exact HI|exact E].
Qed.

Lemma reachable_Inv (s : state) : reachable host path s -> Inv host s.
Proof. intros [evs H]. eapply execs_Inv; [apply Inv_initial|exact H]. Qed.

(** *** The order in which the goroutines are created *)

Lemma layout_initial : layout initial.
Proof. exists AtParse. split; reflexivity. Qed.

Lemma kind_insert (l : list goroutine) (i : nat) (g g' : goroutine) :
  l !! i = Some g -> kind g' = kind g ->
  map kind (<[i := g']> l) = map kind l.
Proof.
  intros Hi Hk. rewrite list_fmap_insert, Hk.
  apply list_insert_id. rewrite list_lookup_fmap, Hi. reflexivity.
Qed.

(** A step of a goroutine other than [main] keeps every goroutine in its
    place and in its function. *)
Lemma run_other (io : World) (s s' : state) (i : nat) (g : goroutine) :
  pool s !! i = Some g -> kind g <> 0 ->
  run host path io s i = Some s' ->
  map kind (pool s') = map kind (pool s) /\
  (forall pc, pool s !! 0%nat = Some (GMain pc) -> pool s' !! 0%nat = Some (GMain pc)).
Proof.
  intros Hi Hk Hrun.
  assert (Hset : forall g' m mu unl, kind g' = kind g ->
            map kind (pool (set_goroutine s i g' m mu unl)) = map kind (pool s) /\
            (forall pc, pool s !! 0%nat = Some (GMain pc) ->
                        pool (set_goroutine s i g' m mu unl) !! 0%nat = Some (GMain pc))).
  { intros g' m mu unl Hg'. simpl. split; [apply (kind_insert _ _ _ _ Hi Hg')|].
    intros pc H0. rewrite list_lookup_insert_ne; [exact H0|].
    intros ->. rewrite H0 in Hi. inversion Hi; subst. apply Hk. reflexivity. }
  unfold run in Hrun. rewrite Hi in Hrun.
  destruct g as [pc|[pc|]|[pc|]|current pc]; try (exfalso; apply Hk; reflexivity).
  - unfold loop_step in Hrun.
    destruct pc; try (inversion Hrun; subst; apply Hset; reflexivity);
      match type of Hrun with
      | match ?x with _ => _ end = _ =>
          destruct x; inversion Hrun; subst;
          try (apply Hset; reflexivity); split; [reflexivity|intros pc0 H0; exact H0]
      end.
  - destruct (sigs s); inversion Hrun; subst.
    apply (Hset (GSignal (Some AtReadFile)) (m_now s) (mutex s) (unlocked s) eq_refl).
  - unfold loop_step in Hrun.
    destruct pc; try (inversion Hrun; subst; apply Hset; reflexivity);
      match type of Hrun with
      | match ?x with _ => _ end = _ =>
          destruct x; inversion Hrun; subst;
          try (apply Hset; reflexivity); split; [reflexivity|intros pc0 H0; exact H0]
      end.
  - inversion Hrun; subst. apply Hset. reflexivity.
  - destruct (handle_step host io current (m_now s) (mutex s) (unlocked s) pc);
      inversion Hrun; subst. apply Hset. reflexivity.
Qed.

Lemma layout_main (s : state) (i : nat) (pc : main_pc) :
  layout s -> pool s !! i = Some (GMain pc) -> i = 0.
Proof.
  intros (pc0 & _ & Hshape) Hi.
  assert (Hk : map kind (pool s) !! i = Some 0)
    by (rewrite list_lookup_fmap, Hi; reflexivity).
  assert (Hn : exists n, map kind (pool s) !! i
                         = ([0; 1; 2] ++ replicate n 3) !! i \/
                       0 < i /\ map kind (pool s) !! i = None).
  { destruct pc0.
    7: { destruct Hshape as [n Hshape]. exists n. left. rewrite Hshape. reflexivity. }
    all: exists 0; rewrite Hshape; destruct i as [|[|[|i]]]; simpl;
      try (left; reflexivity); right; split; try lia; reflexivity. }
  destruct Hn as [n [Hn|[Hn1 Hn2]]]; [|congruence].
  rewrite Hn in Hk. destruct i as [|[|[|i]]]; try reflexivity; try discriminate.
  simpl in Hk. apply lookup_replicate in Hk as [Hk _]. discriminate.
Qed.

Lemma layout_same_pool (s s' : state) :
  pool s' = pool s -> layout s -> layout s'.
Proof. intros Hp (pc & H0 & Hshape). exists pc. rewrite Hp. split; assumption. Qed.

Lemma exec_layout (s s' : state) (ev : event) :
  layout s -> exec host path s ev = Some s' -> layout s'.
Proof.
  intros HL Hexec.
  destruct ev as [i io|current| |];
    [| |destruct (Sighup_cases _ _ Hexec)
          as (_ & [(_ & ->)|[(_ & _ & H1 & ->)|(_ & ->)]])|];
    unfold exec in Hexec; (destruct (running s); [|discriminate]).
  - destruct (pool s !! i) as [g|] eqn:Hi;
      [|unfold run in Hexec; rewrite Hi in Hexec; discriminate].
    destruct (decide (kind g = 0)) as [Hk|Hk].
    + destruct g as [pc| | |]; try discriminate.
      pose proof (layout_main _ _ _ HL Hi) as ->.
      destruct HL as (pc0 & H0 & Hshape).
      rewrite H0 in Hi. inversion Hi; subst pc0.
      assert (Hlen : 0 < length (pool s)) by (eapply lookup_lt_Some; exact H0).
      unfold run in Hexec. rewrite H0 in Hexec.
      destruct pc; try discriminate.
      * inversion Hexec; subst. exists AtRefreshWhenSig. simpl. split.
        -- apply list_lookup_insert_eq. exact Hlen.
        -- erewrite kind_insert; [exact Hshape|exact H0|reflexivity].
      * inversion Hexec; subst. exists AtRefreshYaml. simpl. split.
        -- rewrite lookup_app_l by (rewrite length_insert; exact Hlen).
           apply list_lookup_insert_eq. exact Hlen.
        -- rewrite map_app. erewrite kind_insert; [|exact H0|reflexivity].
           rewrite Hshape. reflexivity.
      * inversion Hexec; subst. exists AtHostCheck. simpl. split.
        -- rewrite lookup_app_l by (rewrite length_insert; exact Hlen).
           apply list_lookup_insert_eq. exact Hlen.
        -- rewrite map_app. erewrite kind_insert; [|exact H0|reflexivity].
           rewrite Hshape. reflexivity.
      * destruct (String.eqb host ""); inversion Hexec; subst.
        -- exists AtHostCheck. split; assumption.
        -- exists AtHandle. simpl. split.
           ++ apply list_lookup_insert_eq. exact Hlen.
           ++ erewrite kind_insert; [exact Hshape|exact H0|reflexivity].
      * inversion Hexec; subst. exists AtListen. simpl. split.
        -- apply list_lookup_insert_eq. exact Hlen.
        -- erewrite kind_insert; [exact Hshape|exact H0|reflexivity].
      * inversion Hexec; subst. exists Serving. simpl. split.
        -- apply list_lookup_insert_eq. exact Hlen.
        -- exists 0. erewrite kind_insert; [exact Hshape|exact H0|reflexivity].
    + destruct (run_other io s s' i g Hi Hk Hexec) as [Hm H0'].
      destruct HL as (pc & H0 & Hshape). exists pc.
      split; [apply H0'; exact H0|]. rewrite Hm. exact Hshape.
  - unfold serving in Hexec.
    destruct (pool s !! 0) as [[[]| | |]|] eqn:H0; inversion Hexec; subst.
    destruct HL as (pc & H0' & Hshape). rewrite H0 in H0'. inversion H0'; subst pc.
    destruct Hshape as [n Hshape]. exists Serving. simpl. split.
    + rewrite lookup_app_l by (eapply lookup_lt_Some; exact H0). exact H0.
    + exists (S n). rewrite map_app, Hshape, replicate_S_end.
      rewrite <- app_assoc. reflexivity.
  - eapply layout_same_pool; [|exact HL]. reflexivity.
  - destruct HL as (pc & H0 & Hshape). exists pc. simpl. split.
    + rewrite list_lookup_insert_ne by discriminate. exact H0.
    + erewrite kind_insert; [exact Hshape|exact H1|reflexivity].
  - eapply layout_same_pool; [|exact HL]. reflexivity.
  - destruct (listening s); inversion Hexec; subst.
    eapply layout_same_pool; [|exact HL]. reflexivity.
Qed.

Lemma reachable_layout (s : state) : reachable host path s -> layout s.
Proof.
  intros [evs H]. revert H. generalize layout_initial. generalize initial as s0.
  induction evs as [|ev evs IH]; intros s0 HL H; simpl in H.
  - inversion H; subst. exact HL.
  - destruct (exec host path s0 ev) as [s1|] eqn:E; [|discriminate].
    apply (IH s1); [|exact H]. eapply exec_layout; [exact HL|exact E].
Qed.

(** A call of [handle] that has not answered yet can take its next step
    unless it is at [RLock] and a writer is pending or active: other calls
    of [handle], however many hold the read lock, never stand in its way. *)
Lemma handle_never_blocked_by_readers (io : World) (s : state) (i : nat)
    (current : string) (pc : handle_pc) :
  running s = true ->
  pool s !! i = Some (GHandle current pc) ->
  looked_up pc = None \/ (exists p, pc = AtRUnlock p \/ pc = AtRespond p) ->
  (pc = AtRLock -> writer (mutex s) = WFree) ->
  is_Some (exec host path s (Run i io)).
Proof.
  intros Hrun Hi Hpc Hw. unfold exec, run. rewrite Hrun, Hi.
  destruct pc as [| |p|p|p w]; simpl.
  - rewrite (Hw eq_refl). eexists. reflexivity.
  - eexists. reflexivity.
  - eexists. reflexivity.
  - eexists. reflexivity.
  - destruct Hpc as [H|[q [H|H]]]; discriminate.
Qed.

(** *** A call of [loadYaml] run on its own is [loadYaml] *)

Lemma load_run_S (fuel : nat) (io : World) (m : Store) (mu : RWMutex)
    (unl : list Store) (pc : load_pc) :
  (forall err, pc <> Returned err) ->
  load_run path (S fuel) io m mu unl pc =
  match load_step path io m mu unl pc with
  | Next m' mu' unl' pc' => load_run path fuel io m' mu' unl' pc'
  | Blocked => Blocked
  | Crash => Crash
  end.
Proof.
  intros H. destruct pc; try (exfalso; eapply H; reflexivity);
    cbn [load_run]; destruct (load_step path io m mu unl _); reflexivity.
Qed.

Lemma load_run_Returned (fuel : nat) (io : World) (m : Store) (mu : RWMutex)
    (unl : list Store) (err : option error) :
  load_run path fuel io m mu unl (Returned err) = Next m mu unl (Returned err).
Proof. destruct fuel; reflexivity. Qed.

Lemma load_run_decoder (io : World) (sets : list (string * Entry)) (terrors : bool)
    (k : nat) (mp : Mapping) (mu : RWMutex) (unl : list Store) :
  load_run path (length sets + k) io (Some mp) mu unl (InUnmarshal sets terrors)
  = load_run path k io (Some (foldl SetMapIndex mp sets)) mu unl (InUnmarshal [] terrors).
Proof.
  revert mp. induction sets as [|kv sets IH]; intros mp.
  - reflexivity.
  - cbn [length Nat.add]. rewrite load_run_S by discriminate.
    cbn [load_step foldl]. apply IH.
Qed.

Ltac load_next Hr Hy :=
  rewrite load_run_S by discriminate;
  cbn [load_step writer readerCount]; rewrite ?Hr, ?Hy.

Lemma load_run_loadYaml (io : World) (m : Store) (unl : list Store) :
  exists fuel,
    load_run path fuel io m (mkMutex WFree 0) unl AtReadFile =
    match loadYaml path io m with
    | Panics => Crash
    | Returns (m', err) =>
        Next m' (mkMutex WFree 0)
             (match readFile path io with
              | Returns (_, None) => m' :: unl
              | _ => unl
              end)
             (Returned err)
    end.
Proof.
  unfold loadYaml, Unmarshal.
  destruct (readFile path io) as [[vanity [err|]]|] eqn:Hr.
  - exists 1. load_next Hr Hr. apply load_run_Returned.
  - destruct (yaml io vanity) as [|[| |sets] [|]] eqn:Hy.
    + exists 5. do 5 (load_next Hr Hy). apply load_run_Returned.
    + exists 6. do 6 (load_next Hr Hy). apply load_run_Returned.
    + exists 7. do 7 (load_next Hr Hy). rewrite !range_m_id. apply load_run_Returned.
    + exists 6. do 6 (load_next Hr Hy). apply load_run_Returned.
    + exists 7. do 7 (load_next Hr Hy). apply load_run_Returned.
    + exists (4 + (length sets + 2)). cbn [Nat.add].
      do 4 (load_next Hr Hy). rewrite load_run_decoder.
      do 2 (load_next Hr Hy). apply load_run_Returned.
    + exists (4 + (length sets + 3)). cbn [Nat.add].
      do 4 (load_next Hr Hy). rewrite load_run_decoder.
      do 3 (load_next Hr Hy). rewrite !range_m_id. apply load_run_Returned.
  - exists 1. load_next Hr Hr. reflexivity.
Qed.

(** A call of [handle] that is about to read [m] finds no reload inside
    the lock, and [m] as the last [Unlock] left it. *)
Lemma lookup_outside_lock (s : state) (i : nat) (current : string) :
  Inv host s ->
  pool s !! i = Some (GHandle current AtIndex) ->
  count in_critical (pool s) = 0 /\ m_now s = committed s.
Proof.
  intros [Hr Ha Hp He Hq Hg Hpool] Hi.
  assert (Hw : writer (mutex s) <> WActive).
  { intros Hw. specialize (He Hw).
    pose proof (count_pos in_read _ _ _ Hi eq_refl). lia. }
  split; [|apply Hq; exact Hw].
  rewrite Ha. destruct (decide (writer (mutex s) = WActive)); [contradiction|reflexivity].
Qed.

End GoroutineFacts.

(** ** Start-up *)

(** In [served_before_load] the request for [/foo] is answered with 404
    although the configuration file defines [/foo]: [m] is still nil. *)
Lemma served_before_load_404 :
  match execs "example.com" example.config_path initial trace.served_before_load with
  | Some s =>
      serving s = true /\
      m_now s = None /\
      pool s !! 2%nat = Some (GRefresh (Some AtReadFile)) /\
      pool s !! 3%nat = Some (GHandle "/foo" (Responded None
          (mkResponse (Some 404%Z) [("404 page not found" ++ example.nl)%string]
                      false None)))
  | None => False
  end.
Proof. vm_compute. split_ands; reflexivity. Qed.

(** In [served_after_load] the same request waits for the first load and
    is answered with 200. *)
Lemma served_after_load_200 :
  match execs "example.com" example.config_path initial trace.served_after_load with
  | Some s =>
      index (m_now s) "/foo" = Some (mkEntry "https://github.com/org/foo" "") /\
      length (unlocked s) = 1 /\
      match pool s !! 3%nat with
      | Some (GHandle "/foo" (Responded (Some _) w)) => status w = 200%Z
      | _ => False
      end
  | None => False
  end.
Proof. vm_compute. split_ands; reflexivity. Qed.

(** C7, as stated, fails: in [served_before_load] the server accepts and
    serves a request while the refreshing goroutine has not taken a
    step. *)
Lemma C7_serving_before_first_load :
  ~ load_precedes_serving "example.com" example.config_path.
Proof.
  intros H.
  pose proof served_before_load_404 as L.
  destruct (execs "example.com" example.config_path initial trace.served_before_load)
    as [s|] eqn:He; [|contradiction].
  destruct L as (Hs & _).
  specialize (H _ _ He Hs).
  assert (E : returned_during "example.com" example.config_path initial
                trace.served_before_load = false)
    by (vm_compute; reflexivity).
  rewrite E in H. discriminate H.
Qed.

(** C7, amended.  At process start [m] is nil and the server does not
    accept.  [main] starts the refreshing goroutine before the server
    accepts, and does not wait for its load: as long as no reload has
    released the lock, every lookup finds nothing and is answered with
    404.  A lookup never reads [m] while a reload holds the lock. *)
Theorem C7_load_started_not_awaited (host path : string) (s : state) :
  reachable host path s ->
  m_now initial = None /\ serving initial = false /\
  (serving s = true -> exists pc, pool s !! 2%nat = Some (GRefresh pc)) /\
  (unlocked s = [] ->
   forall i current pc p,
     pool s !! i = Some (GHandle current pc) -> looked_up pc = Some p ->
     p = None /\
     forall w, pc = Responded p w -> status w = 404%Z) /\
  (forall i current,
     pool s !! i = Some (GHandle current AtIndex) ->
     count in_critical (pool s) = 0 /\ m_now s = committed s).
Proof.
  intros Hreach.
  pose proof (reachable_Inv host path s Hreach) as [Hr Ha Hp He Hq Hg Hpool].
  pose proof (reachable_layout host path s Hreach) as (mpc & H0 & Hshape).
  split; [reflexivity|]. split; [reflexivity|]. split; [|split].
  - intros Hs. unfold serving in Hs. rewrite H0 in Hs.
    destruct mpc; try discriminate. destruct Hshape as [n Hshape].
    assert (Hk : map kind (pool s) !! 2 = Some 2) by (rewrite Hshape; reflexivity).
    rewrite list_lookup_fmap in Hk.
    destruct (pool s !! 2) as [[| |pc|]|]; try discriminate.
    exists pc. reflexivity.
  - intros Hu i current pc p Hi Hl.
    destruct (Hpool _ _ Hi) as (_ & H2 & H3).
    destruct (H2 _ _ _ eq_refl Hl) as (g & Hin & ->).
    rewrite Hu in Hin. apply list_elem_of_singleton in Hin as ->.
    split; [reflexivity|].
    intros w ->. destruct (H3 _ _ _ eq_refl) as [io ->].
    change (index None current) with (@None Entry).
    rewrite respond_miss. reflexivity.
  - intros i current Hi.
    apply (lookup_outside_lock host s i current); [|exact Hi].
    apply (reachable_Inv host path s Hreach).
Qed.

(** ** Lookups beside reloads *)

(** C9.  In every state the process can reach: the values [m] had at the
    successive [Unlock]s are each what one whole reload (decode and loop)
    makes of the one before; a call of [handle] that is about to read [m]
    finds no reload inside the lock and [m] equal to the latest of these
    values; what a call has read is the entry of its path in one of these
    values; and a call that has not answered can always take its next
    step unless it is at [RLock] with a writer pending or active, so
    lookups never block one another. *)
Theorem C9_lookups_see_whole_reloads (host path : string) (s : state) :
  reachable host path s ->
  generations_ok (unlocked s) /\
  (forall i current,
     pool s !! i = Some (GHandle current AtIndex) ->
     count in_critical (pool s) = 0 /\ m_now s = committed s) /\
  (forall i current pc p,
     pool s !! i = Some (GHandle current pc) -> looked_up pc = Some p ->
     exists g, g ∈ unlocked s ++ [None] /\ p = index g current) /\
  (forall i current pc io,
     running s = true ->
     pool s !! i = Some (GHandle current pc) ->
     looked_up pc = None \/ (exists p, pc = AtRUnlock p \/ pc = AtRespond p) ->
     (pc = AtRLock -> writer (mutex s) = WFree) ->
     is_Some (exec host path s (Run i io))).
Proof.
  intros Hreach.
  pose proof (reachable_Inv host path s Hreach) as HI.
  pose proof HI as [Hr Ha Hp He Hq Hg Hpool].
  split; [exact Hg|]. split; [|split].
  - intros i current Hi. apply (lookup_outside_lock host s i current HI Hi).
  - intros i current pc p Hi Hl.
    destruct (Hpool _ _ Hi) as (_ & H2 & _). apply (H2 _ _ _ eq_refl Hl).
  - intros i current pc io. apply handle_never_blocked_by_readers.
Qed.

(** ** The theorems at the example configurations *)

(** C2 at [bar_yaml] reloaded over a map that holds [/foo]. *)
Lemma C2_witness :
  exists m',
    loadYaml example.config_path
      (example.disk example.bar_yaml example.renders) example.m_foo
      = Returns (m', None) /\
    exists vanity eff,
      readFile example.config_path (example.disk example.bar_yaml example.renders)
        = Returns (vanity, None) /\
      yaml (example.disk example.bar_yaml example.renders) vanity = Decoded eff false /\
      match eff with
      | Untouched => m' = example.m_foo
      | SetNil => m' = None
      | StoreEntries sets =>
          forall k, index m' k =
                    match document_map sets !! k with
                    | Some e => Some e
                    | None => index example.m_foo k
                    end
      end.
Proof.
  exists (apply_effect
            (StoreEntries [("/bar", mkEntry "https://example.org/bar.git" "")])
            example.m_foo).
  assert (H : loadYaml example.config_path
                (example.disk example.bar_yaml example.renders) example.m_foo
              = Returns (apply_effect
                           (StoreEntries
                              [("/bar", mkEntry "https://example.org/bar.git" "")])
                           example.m_foo, None))
    by (vm_compute; reflexivity).
  split; [exact H|].
  exact (C2_reload_updates_in_place _ _ _ _ H).
Defined.

(** C3 at a document whose second entry does not fit: the decoder has
    stored [/bar] when [loadYaml] returns its error. *)
Lemma C3_witness :
  loadYaml example.config_path
    (example.disk example.bar_baz_yaml example.renders) example.m_foo
    = Returns (apply_effect
                 (StoreEntries [("/bar", mkEntry "https://example.org/bar.git" "")])
                 example.m_foo,
               Some ErrYamlDecode) /\
  ((((exists vanity,
        readFile example.config_path
          (example.disk example.bar_baz_yaml example.renders)
        = Returns (vanity, Some ErrYamlDecode)) \/
     (exists vanity,
        readFile example.config_path
          (example.disk example.bar_baz_yaml example.renders)
        = Returns (vanity, None) /\
        yaml (example.disk example.bar_baz_yaml example.renders) vanity = SyntaxError /\
        ErrYamlDecode = ErrYamlSyntax)) /\
    apply_effect (StoreEntries [("/bar", mkEntry "https://example.org/bar.git" "")])
      example.m_foo = example.m_foo /\
    forall current,
      handle "example.com" (example.disk example.bar_baz_yaml example.renders)
        (apply_effect
           (StoreEntries [("/bar", mkEntry "https://example.org/bar.git" "")])
           example.m_foo) current
      = handle "example.com" (example.disk example.bar_baz_yaml example.renders)
          example.m_foo current) \/
   (exists vanity eff,
      readFile example.config_path
        (example.disk example.bar_baz_yaml example.renders)
      = Returns (vanity, None) /\
      yaml (example.disk example.bar_baz_yaml example.renders) vanity
      = Decoded eff true /\
      ErrYamlDecode = ErrYamlDecode /\
      match eff with
      | Untouched =>
          apply_effect
            (StoreEntries [("/bar", mkEntry "https://example.org/bar.git" "")])
            example.m_foo = example.m_foo
      | SetNil =>
          apply_effect
            (StoreEntries [("/bar", mkEntry "https://example.org/bar.git" "")])
            example.m_foo = None
      | StoreEntries sets =>
          forall k,
            index (apply_effect
                     (StoreEntries [("/bar", mkEntry "https://example.org/bar.git" "")])
                     example.m_foo) k =
            match document_map sets !! k with
            | Some e => Some e
            | None => index example.m_foo k
            end
      end)).
Proof.
  assert (H : loadYaml example.config_path
                (example.disk example.bar_baz_yaml example.renders) example.m_foo
              = Returns (apply_effect
                           (StoreEntries
                              [("/bar", mkEntry "https://example.org/bar.git" "")])
                           example.m_foo,
                         Some ErrYamlDecode))
    by (vm_compute; reflexivity).
  split; [exact H|].
  exact (C3_failure_by_stage _ "example.com" _ _ _ _ H).
Defined.

(** C5 at [bar_yaml], loaded into the nil map and into a map that holds
    [/foo]. *)
Lemma C5_witness :
  exists r1 r2,
    loadYaml example.config_path
      (example.disk example.bar_yaml example.renders) None = Returns (r1, None) /\
    loadYaml example.config_path
      (example.disk example.bar_yaml example.renders) example.m_foo
      = Returns (r2, None) /\
    (loadYaml example.config_path
       (example.disk example.bar_yaml example.renders) r1 = Returns (r1, None) /\
     (None = example.m_foo -> r1 = r2) /\
     forall k, index r1 k <> index r2 k ->
               index r1 k = index None k /\ index r2 k = index example.m_foo k).
Proof.
  pose (eff := StoreEntries [("/bar", mkEntry "https://example.org/bar.git" "")]).
  exists (apply_effect eff None), (apply_effect eff example.m_foo).
  assert (H1 : loadYaml example.config_path
                 (example.disk example.bar_yaml example.renders) None
               = Returns (apply_effect eff None, None))
    by (vm_compute; reflexivity).
  assert (H2 : loadYaml example.config_path
                 (example.disk example.bar_yaml example.renders) example.m_foo
               = Returns (apply_effect eff example.m_foo, None))
    by (vm_compute; reflexivity).
  split; [exact H1|]. split; [exact H2|].
  exact (C5_deterministic_given_prior_m _ _ _ _ _ _ H1 H2).
Defined.

(** C7 at the state [served_before_load] ends in. *)
Lemma C7_witness :
  exists s,
    execs "example.com" example.config_path initial trace.served_before_load = Some s /\
    reachable "example.com" example.config_path s /\
    (m_now initial = None /\ serving initial = false /\
     (serving s = true -> exists pc, pool s !! 2%nat = Some (GRefresh pc)) /\
     (unlocked s = [] ->
      forall i current pc p,
        pool s !! i = Some (GHandle current pc) -> looked_up pc = Some p ->
        p = None /\
        forall w, pc = Responded p w -> status w = 404%Z) /\
     (forall i current,
        pool s !! i = Some (GHandle current AtIndex) ->
        count in_critical (pool s) = 0 /\ m_now s = committed s)).
Proof.
  eexists. split; [vm_compute; reflexivity|].
  match goal with
  | |- reachable ?h ?p ?s /\ _ =>
      assert (Hr : reachable h p s)
        by (exists trace.served_before_load; vm_compute; reflexivity)
  end.
  split; [exact Hr|].
  exact (C7_load_started_not_awaited _ _ _ Hr).
Defined.

(** C9 at the state [served_after_load] ends in. *)
Lemma C9_witness :
  exists s,
    execs "example.com" example.config_path initial trace.served_after_load = Some s /\
    reachable "example.com" example.config_path s /\
    (generations_ok (unlocked s) /\
     (forall i current,
        pool s !! i = Some (GHandle current AtIndex) ->
        count in_critical (pool s) = 0 /\ m_now s = committed s) /\
     (forall i current pc p,
        pool s !! i = Some (GHandle current pc) -> looked_up pc = Some p ->
        exists g, g ∈ unlocked s ++ [None] /\ p = index g current) /\
     (forall i current pc io,
        running s = true ->
        pool s !! i = Some (GHandle current pc) ->
        looked_up pc = None \/ (exists p, pc = AtRUnlock p \/ pc = AtRespond p) ->
        (pc = AtRLock -> writer (mutex s) = WFree) ->
        is_Some (exec "example.com" example.config_path s (Run i io)))).
Proof.
  eexists. split; [vm_compute; reflexivity|].
  match goal with
  | |- reachable ?h ?p ?s /\ _ =>
      assert (Hr : reachable h p s)
        by (exists trace.served_after_load; vm_compute; reflexivity)
  end.
  split; [exact Hr|].
  exact (C9_lookups_see_whole_reloads _ _ _ Hr).
Defined.

(** * Further properties of the code *)

(** ** The reload path *)

(** X1.  With a locator that begins with [http], no reload ever installs
    anything: [loadYaml] panics (the fetch succeeded) or returns an error
    with [m] exactly as it was. *)
Theorem X1_http_reload_never_succeeds (path : string) (io : World) (m : Store) :
  readFile_route path = ViaHTTP ->
  loadYaml path io m = Panics \/
  exists err, loadYaml path io m = Returns (m, Some err).
Proof.
  intros Hroute. unfold loadYaml, readFile. rewrite Hroute.
  destruct (loadHTTPFile path io) as [[vanity [err|]]|] eqn:Hl.
  - right. exists err. reflexivity.
  - exfalso. apply (loadHTTPFile_returns _ _ _ _ Hl). reflexivity.
  - left. reflexivity.
Qed.

Lemma X1_witness :
  readFile_route example.config_url = ViaHTTP /\
  (loadYaml example.config_url (example.web example.foo_yaml) example.m_foo = Panics \/
   exists err,
     loadYaml example.config_url (example.web example.foo_yaml) example.m_foo
       = Returns (example.m_foo, Some err)).
Proof.
  assert (H : readFile_route example.config_url = ViaHTTP)
    by (vm_compute; reflexivity).
  split; [exact H|].
  exact (X1_http_reload_never_succeeds _ _ _ H).
Defined.

(** X2.  With any other locator [loadYaml] always returns, and it returns
    a nil error exactly when [ioutil.ReadFile] gave no error and the
    decoder reported none. *)
Theorem X2_disk_reload_always_returns (path : string) (io : World) (m : Store) :
  readFile_route path = ViaDisk ->
  exists m' err,
    loadYaml path io m = Returns (m', err) /\
    (err = None <->
     snd (ReadFile io path) = None /\
     exists eff, yaml io (fst (ReadFile io path)) = Decoded eff false).
Proof.
  intros Hroute. unfold loadYaml, readFile, loadDiskFile, Unmarshal.
  rewrite Hroute. destruct (ReadFile io path) as [vanity [e|]]; simpl.
  - exists m, (Some e). split; [reflexivity|].
    split; [discriminate|]. intros [H _]. discriminate.
  - destruct (yaml io vanity) as [|eff [|]] eqn:Hy.
    + exists m, (Some ErrYamlSyntax). split; [reflexivity|].
      split; [discriminate|]. intros [_ [eff H]]. discriminate.
    + exists (apply_effect eff m), (Some ErrYamlDecode). split; [reflexivity|].
      split; [discriminate|]. intros [_ [eff' H]]. discriminate.
    + exists (range_m (apply_effect eff m)), None. split; [reflexivity|].
      split; [|reflexivity]. intros _. split; [reflexivity|].
      exists eff. reflexivity.
Qed.

Lemma X2_witness :
  readFile_route example.config_path = ViaDisk /\
  exists m' err,
    loadYaml example.config_path (example.disk example.bar_baz_yaml example.renders)
      example.m_foo = Returns (m', err) /\
    (err = None <->
     snd (ReadFile (example.disk example.bar_baz_yaml example.renders)
            example.config_path) = None /\
     exists eff,
       yaml (example.disk example.bar_baz_yaml example.renders)
         (fst (ReadFile (example.disk example.bar_baz_yaml example.renders)
                 example.config_path)) = Decoded eff false).
Proof.
  assert (H : readFile_route example.config_path = ViaDisk)
    by (vm_compute; reflexivity).
  split; [exact H|].
  exact (X2_disk_reload_always_returns _ _ _ H).
Defined.

(** X3.  Whatever [m] holds, the loop [for _, e := range m] leaves every
    entry of [m] as it was, also the entries of GitHub repositories with an
    empty display: after [loadYaml] each key has the display that the
    document gave it. *)
Theorem X3_range_loop_writes_nothing (path : string) (io : World)
    (m m' : Store) (k : string) :
  index (range_m m) k = index m k /\
  (loadYaml path io m = Returns (m', None) ->
   exists vanity,
     readFile path io = Returns (vanity, None) /\
     index m' k = index (Unmarshal io vanity m).1 k).
Proof.
  split; [rewrite range_m_id; reflexivity|].
  intros H. destruct (loadYaml_ok _ _ _ _ H) as (vanity & eff & Hr & Hy & ->).
  exists vanity. split; [exact Hr|].
  unfold Unmarshal. rewrite Hy. reflexivity.
Qed.

(** X4.  A reload never removes a key, whether it succeeds or fails,
    unless the document is a null: every key [m] had before is still a
    key afterwards. *)
Theorem X4_reload_never_removes_keys (path : string) (io : World)
    (m m' : Store) (err : option error) (k : string) :
  loadYaml path io m = Returns (m', err) ->
  (forall vanity terrors,
     readFile path io = Returns (vanity, None) ->
     yaml io vanity <> Decoded SetNil terrors) ->
  is_Some (index m k) -> is_Some (index m' k).
Proof.
  intros H Hnull Hk.
  assert (Heff : m' = m \/
                 exists vanity eff terrors,
                   readFile path io = Returns (vanity, None) /\
                   yaml io vanity = Decoded eff terrors /\
                   m' = apply_effect eff m).
  { destruct err as [e|].
    - destruct (loadYaml_err _ _ _ _ _ H)
        as [(v & _ & ->)|[(v & _ & _ & _ & ->)|(v & eff & Hr & Hy & _ & ->)]];
        [left; reflexivity|left; reflexivity|].
      right. exists v, eff, true. split_ands; assumption || reflexivity.
    - destruct (loadYaml_ok _ _ _ _ H) as (v & eff & Hr & Hy & ->).
      right. exists v, eff, false. split_ands; assumption || reflexivity. }
  destruct Heff as [->|(v & eff & t & Hr & Hy & ->)]; [exact Hk|].
  destruct eff as [| |sets]; simpl.
  - exact Hk.
  - exfalso. exact (Hnull _ _ Hr Hy).
  - rewrite foldl_SetMapIndex_lookup.
    destruct (document_map sets !! k); [eexists; reflexivity|].
    destruct m; simpl in *; [exact Hk|destruct Hk; discriminate].
Qed.

Lemma X4_witness :
  exists m',
    loadYaml example.config_path (example.disk example.bar_baz_yaml example.renders)
      example.m_foo = Returns (m', Some ErrYamlDecode) /\
    is_Some (index example.m_foo "/foo") /\
    is_Some (index m' "/foo").
Proof.
  pose (eff := StoreEntries [("/bar", mkEntry "https://example.org/bar.git" "")]).
  exists (apply_effect eff example.m_foo).
  assert (H : loadYaml example.config_path
                (example.disk example.bar_baz_yaml example.renders) example.m_foo
              = Returns (apply_effect eff example.m_foo, Some ErrYamlDecode))
    by (vm_compute; reflexivity).
  assert (Hk : is_Some (index example.m_foo "/foo"))
    by (eexists; vm_compute; reflexivity).
  split; [exact H|]. split; [exact Hk|].
  apply (X4_reload_never_removes_keys _ _ _ _ _ "/foo" H); [|exact Hk].
  intros vanity terrors Hr Hy.
  assert (Hv : vanity = list_byte_of_string example.bar_baz_yaml).
  { assert (E : readFile example.config_path
                  (example.disk example.bar_baz_yaml example.renders)
                = Returns (list_byte_of_string example.bar_baz_yaml, None))
      by (vm_compute; reflexivity).
    rewrite E in Hr. inversion Hr. reflexivity. }
  subst vanity.
  assert (E : yaml (example.disk example.bar_baz_yaml example.renders)
                (list_byte_of_string example.bar_baz_yaml)
              = Decoded eff true)
    by (vm_compute; reflexivity).
  rewrite E in Hy. discriminate Hy.
Defined.

Lemma document_map_last (sets : list (string * Entry)) (k : string) :
  document_map sets !! k = snd <$> last (filter (fun kv => kv.1 = k) sets).
Proof.
  unfold document_map.
  induction sets as [|kv sets IH] using rev_ind; [reflexivity|].
  rewrite foldl_app, filter_app. simpl. unfold SetMapIndex at 1.
  destruct (decide (kv.1 = k)) as [Hk|Hk].
  - rewrite filter_cons_True by exact Hk. rewrite filter_nil, last_snoc.
    rewrite <- Hk. apply lookup_insert_eq.
  - rewrite filter_cons_False by exact Hk. rewrite filter_nil, app_nil_r.
    rewrite lookup_insert_ne by exact Hk. apply IH.
Qed.

(** X5.  The first load of a process, into the nil map, gives [m] the
    entries of the document and no others: a key is bound if and only if
    some entry of the document has it, and then to the last such entry
    in the document. *)
Theorem X5_first_load_is_the_document (path : string) (io : World)
    (vanity : bytes) (sets : list (string * Entry)) :
  readFile path io = Returns (vanity, None) ->
  yaml io vanity = Decoded (StoreEntries sets) false ->
  exists m',
    loadYaml path io None = Returns (m', None) /\
    forall k,
      (is_Some (index m' k) <-> k ∈ map fst sets) /\
      index m' k = snd <$> last (filter (fun kv => kv.1 = k) sets).
Proof.
  intros Hr Hy. exists (apply_effect (StoreEntries sets) None).
  split; [apply (loadYaml_ok_intro _ _ _ _ _ Hr Hy)|].
  intros k.
  assert (E : index (apply_effect (StoreEntries sets) None) k
              = snd <$> last (filter (fun kv => kv.1 = k) sets))
    by apply document_map_last.
  split; [|exact E]. rewrite E. rewrite fmap_is_Some. split.
  - intros [kv Hl]. apply last_Some_elem_of in Hl.
    apply list_elem_of_filter in Hl as [Hk Hin]. simpl in Hk. subst k.
    apply list_elem_of_fmap. exists kv. split; [reflexivity|exact Hin].
  - intros Hin. apply list_elem_of_fmap in Hin as (kv & -> & Hin).
    assert (Hf : kv ∈ filter (fun kv' : string * Entry => kv'.1 = kv.1) sets)
      by (apply list_elem_of_filter; split; [reflexivity|exact Hin]).
    destruct (filter (fun kv' : string * Entry => kv'.1 = kv.1) sets)
      as [|x l] eqn:El using rev_ind.
    + apply elem_of_nil in Hf. contradiction.
    + rewrite last_snoc. eexists. reflexivity.
Qed.

Lemma X5_witness :
  readFile example.config_path (example.disk example.foo_yaml example.renders)
    = Returns (list_byte_of_string example.foo_yaml, None) /\
  yaml (example.disk example.foo_yaml example.renders)
    (list_byte_of_string example.foo_yaml)
    = Decoded (StoreEntries [("/foo", mkEntry "https://github.com/org/foo" "")]) false /\
  exists m',
    loadYaml example.config_path (example.disk example.foo_yaml example.renders) None
      = Returns (m', None) /\
    forall k,
      (is_Some (index m' k)
       <-> k ∈ map fst [("/foo", mkEntry "https://github.com/org/foo" "")]) /\
      index m' k
      = snd <$> last (filter (fun kv => kv.1 = k)
                        [("/foo", mkEntry "https://github.com/org/foo" "")]).
Proof.
  assert (Hr : readFile example.config_path
                 (example.disk example.foo_yaml example.renders)
               = Returns (list_byte_of_string example.foo_yaml, None))
    by (vm_compute; reflexivity).
  assert (Hy : yaml (example.disk example.foo_yaml example.renders)
                 (list_byte_of_string example.foo_yaml)
               = Decoded (StoreEntries
                            [("/foo", mkEntry "https://github.com/org/foo" "")]) false)
    by (vm_compute; reflexivity).
  split; [exact Hr|]. split; [exact Hy|].
  exact (X5_first_load_is_the_document _ _ _ _ Hr Hy).
Defined.

(** X6.  Two successful reloads of mapping documents in a row, the file
    having changed in between: afterwards a key has the entry of the
    second document if that binds it, else the entry of the first
    document if that binds it, else the entry it had before both. *)
Theorem X6_reloads_accumulate (path : string) (io1 io2 : World) (m : Store)
    (v1 v2 : bytes) (sets1 sets2 : list (string * Entry)) :
  readFile path io1 = Returns (v1, None) ->
  yaml io1 v1 = Decoded (StoreEntries sets1) false ->
  readFile path io2 = Returns (v2, None) ->
  yaml io2 v2 = Decoded (StoreEntries sets2) false ->
  exists m1 m2,
    loadYaml path io1 m = Returns (m1, None) /\
    loadYaml path io2 m1 = Returns (m2, None) /\
    forall k, index m2 k =
              match document_map sets2 !! k with
              | Some e => Some e
              | None =>
                  match document_map sets1 !! k with
                  | Some e => Some e
                  | None => index m k
                  end
              end.
Proof.
  intros Hr1 Hy1 Hr2 Hy2.
  exists (apply_effect (StoreEntries sets1) m),
         (apply_effect (StoreEntries sets2) (apply_effect (StoreEntries sets1) m)).
  split; [apply (loadYaml_ok_intro _ _ _ _ _ Hr1 Hy1)|].
  split; [apply (loadYaml_ok_intro _ _ _ _ _ Hr2 Hy2)|].
  intros k. simpl. rewrite !foldl_SetMapIndex_lookup.
  destruct (document_map sets2 !! k); [reflexivity|].
  destruct (document_map sets1 !! k); [reflexivity|].
  destruct m; simpl; [reflexivity|apply lookup_empty].
Qed.

Lemma X6_witness :
  exists m1 m2,
    loadYaml example.config_path (example.disk example.foo_yaml example.renders) None
      = Returns (m1, None) /\
    loadYaml example.config_path (example.disk example.bar_yaml example.renders) m1
      = Returns (m2, None) /\
    forall k, index m2 k =
              match document_map [("/bar", mkEntry "https://example.org/bar.git" "")] !! k with
              | Some e => Some e
              | None =>
                  match document_map
                          [("/foo", mkEntry "https://github.com/org/foo" "")] !! k with
                  | Some e => Some e
                  | None => index None k
                  end
              end.
Proof.
  assert (Hr1 : readFile example.config_path
                  (example.disk example.foo_yaml example.renders)
                = Returns (list_byte_of_string example.foo_yaml, None))
    by (vm_compute; reflexivity).
  assert (Hy1 : yaml (example.disk example.foo_yaml example.renders)
                  (list_byte_of_string example.foo_yaml)
                = Decoded (StoreEntries
                             [("/foo", mkEntry "https://github.com/org/foo" "")]) false)
    by (vm_compute; reflexivity).
  assert (Hr2 : readFile example.config_path
                  (example.disk example.bar_yaml example.renders)
                = Returns (list_byte_of_string example.bar_yaml, None))
    by (vm_compute; reflexivity).
  assert (Hy2 : yaml (example.disk example.bar_yaml example.renders)
                  (list_byte_of_string example.bar_yaml)
                = Decoded (StoreEntries
                             [("/bar", mkEntry "https://example.org/bar.git" "")]) false)
    by (vm_compute; reflexivity).
  exact (X6_reloads_accumulate _ _ _ None _ _ _ _ Hr1 Hy1 Hr2 Hy2).
Defined.

(** ** Strings *)

(** X7.  The test [strings.Contains(e.Repo, "github.com")] of [loadYaml]:
    [Contains s substr] holds exactly when [substr] occurs somewhere in
    [s], with any text before and after it. *)
Theorem X7_Contains_occurs (s substr : string) :
  strings.Contains s substr = true <->
  exists before after, s = (before ++ substr ++ after)%string.
Proof.
  split.
  - induction s as [|c s IH]; cbn [strings.Contains]; intros H.
    + apply orb_true_iff in H as [H|H]; [|discriminate].
      apply HasPrefix_app in H as [rest H]. exists "", rest. exact H.
    + apply orb_true_iff in H as [H|H].
      * apply HasPrefix_app in H as [rest H]. exists "", rest. exact H.
      * destruct (IH H) as (before & after & ->).
        exists (String c before), after. reflexivity.
  - intros (before & after & ->). induction before as [|c before IH].
    + assert (H : strings.HasPrefix (substr ++ after) substr = true)
        by (apply HasPrefix_app; exists after; reflexivity).
      change ("" ++ substr ++ after)%string with (substr ++ after)%string.
      destruct (substr ++ after)%string; cbn [strings.Contains];
        rewrite H; reflexivity.
    + change (String c before ++ substr ++ after)%string
        with (String c (before ++ substr ++ after))%string.
      cbn [strings.Contains]. rewrite IH. apply orb_true_r.
Qed.

(** ** The request handler *)

(** X8.  What [handle] answers, in full.  When the path is no key: 404
    and the standard text.  When it is a key: always 200, and of the page
    (the template's outputs in order) as much as was written before a
    write failed, all of it when none did; a write fails only when the
    client is gone and the page is larger than the response buffer.  So
    500 and the generic text are never sent. *)
Theorem X8_handle_response (host : string) (io : World) (m : Store)
    (current : string) :
  match index m current with
  | None =>
      handle host io m current
        = mkResponse (Some 404%Z) [("404 page not found" ++ String "010" "")%string]
                     false (connection io)
  | Some p =>
      let d := {| data.Import := host ++ current;
                  data.Repo := Repo p; data.Display := Display p |} in
      let w := handle host io m current in
      status w = 200%Z /\
      (exists n, written w = take n (page io d) /\
                 (failed w = false -> n = length (page io d))) /\
      (failed w = true ->
         connection io <> None /\
         bufferBeforeChunkingSize < list_sum (map String.length (page io d)))
  end.
Proof.
  destruct (index m current) as [p|] eqn:H.
  - unfold handle. rewrite H. apply respond_hit_page.
  - apply handle_miss, H.
Qed.

(** ** Goroutines *)

Lemma count_exists (P : goroutine -> bool) (l : list goroutine) :
  0 < count P l -> exists i g, l !! i = Some g /\ P g = true.
Proof.
  induction l as [|x l IH]; simpl; [lia|].
  destruct (P x) eqn:Hx.
  - intros _. exists 0, x. split; [reflexivity|exact Hx].
  - intros H. destruct (IH H) as (i & g & Hi & Hg).
    exists (S i), g. split; assumption.
Qed.

(** X9.  In every state the process can reach, at most one call of
    [loadYaml] is past the first half of [mutex.Lock()], nobody is between
    [RLock] and [RUnlock] while a call of [loadYaml] is between [Lock] and
    [Unlock], and the reader count of the mutex is the number of calls of
    [handle] between [RLock] and [RUnlock]. *)
Theorem X9_mutual_exclusion (host path : string) (s : state) :
  reachable host path s ->
  count in_critical (pool s) + count in_lockwait (pool s) <= 1 /\
  (0 < count in_critical (pool s) -> count in_read (pool s) = 0) /\
  count in_read (pool s) = readerCount (mutex s).
Proof.
  intros Hreach.
  pose proof (reachable_Inv host path s Hreach) as [Hr Ha Hp He Hq Hg Hpool].
  split; [|split].
  - rewrite Ha, Hp. repeat case_decide; try lia. congruence.
  - intros H. rewrite Ha in H. case_decide; [|lia].
    rewrite Hr. apply He. assumption.
  - exact Hr.
Qed.

Lemma X9_witness :
  exists s,
    execs "example.com" example.config_path initial trace2.reader_waits = Some s /\
    reachable "example.com" example.config_path s /\
    (count in_critical (pool s) + count in_lockwait (pool s) <= 1 /\
     (0 < count in_critical (pool s) -> count in_read (pool s) = 0) /\
     count in_read (pool s) = readerCount (mutex s)).
Proof.
  eexists. split; [vm_compute; reflexivity|].
  match goal with
  | |- reachable ?h ?p ?s /\ _ =>
      assert (Hr : reachable h p s)
        by (exists trace2.reader_waits; vm_compute; reflexivity)
  end.
  split; [exact Hr|].
  exact (X9_mutual_exclusion _ _ _ Hr).
Defined.

Lemma load_step_writes (path : string) (io : World) (m m' : Store)
    (mu mu' : RWMutex) (unl unl' : list Store) (pc pc' : load_pc) :
  load_step path io m mu unl pc = Next m' mu' unl' pc' ->
  m' <> m -> holds_lock pc = true.
Proof.
  intros H Hne. destruct pc as [|v|v|v|[|kv sets] t| |e|e]; try reflexivity;
    simpl in H; exfalso.
  - destruct (readFile path io) as [[v [e|]]|]; inversion H; subst; congruence.
  - destruct (writer mu); inversion H; subst; congruence.
  - destruct (readerCount mu); inversion H; subst; congruence.
  - discriminate.
Qed.

Lemma handle_step_reads (host : string) (io : World) (current : string)
    (m m' : Store) (mu mu' : RWMutex) (unl unl' : list Store) (pc pc' : handle_pc) :
  handle_step host io current m mu unl pc = Next m' mu' unl' pc' -> m' = m.
Proof.
  intros H. destruct pc; simpl in H; try (inversion H; subst; reflexivity).
  destruct (writer mu); inversion H; subst; reflexivity.
Qed.

(** X10.  [m] changes only by a step of a call of [loadYaml] that is
    between [mutex.Lock()] and [mutex.Unlock()], at a time when the mutex
    is held for writing and has no readers: starting goroutines, serving
    requests, signals and [readFile] never change it. *)
Theorem X10_m_written_only_under_lock (host path : string) (s s' : state)
    (ev : event) :
  reachable host path s ->
  exec host path s ev = Some s' ->
  m_now s' <> m_now s ->
  exists i io g pc,
    ev = Run i io /\ pool s !! i = Some g /\
    loader_pc g = Some pc /\ holds_lock pc = true /\
    writer (mutex s) = WActive /\ readerCount (mutex s) = 0.
Proof.
  intros Hreach Hexec Hne.
  pose proof (reachable_Inv host path s Hreach) as [Hr Ha Hp He Hq Hg Hpool].
  assert (Hlock : forall i g pc, pool s !! i = Some g -> loader_pc g = Some pc ->
            holds_lock pc = true ->
            writer (mutex s) = WActive /\ readerCount (mutex s) = 0).
  { intros i g pc Hi Hpc Hl.
    assert (Hc : in_critical g = true) by (rewrite (in_critical_pc _ _ Hpc); exact Hl).
    pose proof (count_pos in_critical _ _ _ Hi Hc) as Hpos.
    rewrite Ha in Hpos. case_decide; [|lia]. split; [assumption|]. apply He. assumption. }
  assert (Hloop : forall i io wrap pc,
            pool s !! i = Some (wrap (Some pc)) ->
            (forall o, loader_pc (wrap o) = o) ->
            loop_step path io s i wrap pc = Some s' ->
            exists g pc0, pool s !! i = Some g /\ loader_pc g = Some pc0 /\
                          holds_lock pc0 = true).
  { intros i io wrap pc Hi Hw Hstep. unfold loop_step in Hstep.
    destruct (load_step path io (m_now s) (mutex s) (unlocked s) pc)
      as [| |m1 mu1 unl1 pc1] eqn:Hl.
    - destruct pc; try discriminate. inversion Hstep; subst. simpl in Hne. congruence.
    - destruct pc; inversion Hstep; subst; simpl in Hne; congruence.
    - assert (Hs' : m_now s' = m1 \/ m_now s' = m_now s).
      { destruct pc; inversion Hstep; subst; simpl; auto. }
      destruct Hs' as [Hs'|Hs']; [|congruence].
      exists (wrap (Some pc)), pc. split; [exact Hi|]. split; [apply Hw|].
      apply (load_step_writes _ _ _ _ _ _ _ _ _ _ Hl). congruence. }
  destruct ev as [i io|current| |];
    [| |exfalso; destruct (Sighup_cases _ _ _ _ Hexec)
                   as (_ & [(_ & ->)|[(_ & _ & _ & ->)|(_ & ->)]]);
        simpl in Hne; congruence|];
    unfold exec in Hexec; (destruct (running s); [|discriminate]).
  - unfold run in Hexec.
    destruct (pool s !! i) as [[pc|[pc|]|[pc|]|current pc]|] eqn:Hi; try discriminate.
    + exfalso. destruct pc; try discriminate;
        try (inversion Hexec; subst; simpl in Hne; congruence).
      destruct (String.eqb host ""); inversion Hexec; subst; simpl in Hne; congruence.
    + destruct (Hloop i io GSignal pc Hi (fun o => eq_refl) Hexec)
        as (g & pc0 & Hg0 & Hpc0 & Hl0).
      destruct (Hlock _ _ _ Hg0 Hpc0 Hl0) as [Hw Hrc].
      exists i, io, g, pc0. split_ands; try assumption; reflexivity.
    + exfalso. destruct (sigs s); inversion Hexec; subst. simpl in Hne. congruence.
    + destruct (Hloop i io GRefresh pc Hi (fun o => eq_refl) Hexec)
        as (g & pc0 & Hg0 & Hpc0 & Hl0).
      destruct (Hlock _ _ _ Hg0 Hpc0 Hl0) as [Hw Hrc].
      exists i, io, g, pc0. split_ands; try assumption; reflexivity.
    + exfalso. inversion Hexec; subst. simpl in Hne. congruence.
    + exfalso.
      destruct (handle_step host io current (m_now s) (mutex s) (unlocked s) pc)
        as [| |m1 mu1 unl1 pc1] eqn:Hh; inversion Hexec; subst.
      simpl in Hne. apply Hne. apply (handle_step_reads _ _ _ _ _ _ _ _ _ _ _ Hh).
  - exfalso. destruct (serving s); inversion Hexec; subst. simpl in Hne. congruence.
  - exfalso. destruct (listening s); inversion Hexec; subst. simpl in Hne. congruence.
Qed.

Lemma X10_witness :
  exists s s',
    execs "example.com" example.config_path initial trace2.before_decode = Some s /\
    exec "example.com" example.config_path s (Run 2 trace.w) = Some s' /\
    m_now s = None /\ m_now s' = Some ∅ /\
    exists i io g pc,
      Run 2 trace.w = Run i io /\ pool s !! i = Some g /\
      loader_pc g = Some pc /\ holds_lock pc = true /\
      writer (mutex s) = WActive /\ readerCount (mutex s) = 0.
Proof.
  eexists. eexists.
  split; [vm_compute; reflexivity|].
  split; [vm_compute; reflexivity|].
  match goal with
  | |- m_now ?s = None /\ m_now ?s' = _ /\ _ =>
      assert (Hr : reachable "example.com" example.config_path s)
        by (exists trace2.before_decode; vm_compute; reflexivity);
      assert (He : exec "example.com" example.config_path s (Run 2 trace.w) = Some s')
        by (vm_compute; reflexivity);
      assert (Hne : m_now s' <> m_now s)
        by (vm_compute; discriminate)
  end.
  split; [vm_compute; reflexivity|]. split; [vm_compute; reflexivity|].
  exact (X10_m_written_only_under_lock _ _ _ _ _ Hr He Hne).
Defined.

(** Whoever holds [mutex] can take its next step. *)
Lemma lock_holder_steps (host path : string) (io : World) (s : state) (i : nat)
    (g : goroutine) :
  running s = true ->
  pool s !! i = Some g ->
  holds_mutex g = true ->
  is_Some (exec host path s (Run i io)).
Proof.
  intros Hrun Hi Hh. unfold exec, run. rewrite Hrun, Hi.
  unfold holds_mutex, in_critical in Hh.
  destruct g as [pc|[pc|]|[pc|]|current pc]; simpl in Hh; try discriminate.
  - destruct pc as [|v|v|v|[|kv sets] t| |e|e]; try discriminate;
      unfold loop_step, load_step.
    + destruct (yaml io v) as [|[| |sets] t]; eexists; reflexivity.
    + destruct t; eexists; reflexivity.
    + eexists; reflexivity.
    + eexists; reflexivity.
    + eexists; reflexivity.
  - destruct pc as [|v|v|v|[|kv sets] t| |e|e]; try discriminate;
      unfold loop_step, load_step.
    + destruct (yaml io v) as [|[| |sets] t]; eexists; reflexivity.
    + destruct t; eexists; reflexivity.
    + eexists; reflexivity.
    + eexists; reflexivity.
    + eexists; reflexivity.
  - destruct pc; try discriminate; eexists; reflexivity.
Qed.

(** The steps inside the critical sections consult the world for nothing
    but the decoder. *)
Lemma lock_holder_step_world (host path : string) (io1 io2 : World) (s : state)
    (i : nat) (g : goroutine) :
  pool s !! i = Some g ->
  holds_mutex g = true ->
  (forall vanity, yaml io1 vanity = yaml io2 vanity) ->
  exec host path s (Run i io1) = exec host path s (Run i io2).
Proof.
  intros Hi Hh Hy. unfold exec, run. rewrite Hi.
  destruct (running s); [|reflexivity].
  unfold holds_mutex, in_critical in Hh.
  destruct g as [pc|[pc|]|[pc|]|current pc]; simpl in Hh; try discriminate.
  - destruct pc as [|v|v|v|[|kv sets] t| |e|e]; try discriminate;
      unfold loop_step, load_step; rewrite ?Hy; reflexivity.
  - destruct pc as [|v|v|v|[|kv sets] t| |e|e]; try discriminate;
      unfold loop_step, load_step; rewrite ?Hy; reflexivity.
  - destruct pc; try discriminate; reflexivity.
Qed.

(** X11.  Nothing is waited for, and no I/O is done, while [mutex] is
    held: between [Lock] and [Unlock] ([loadYaml] has read its source
    before) and between [RLock] and [RUnlock] every step can be taken at
    once, and what it does is the same in two worlds that differ in their
    files, their network or their clients (the decoder being a function of
    the bytes). *)
Theorem X11_no_io_under_lock (host path : string) (io1 io2 : World)
    (s : state) (i : nat) (g : goroutine) :
  running s = true ->
  pool s !! i = Some g ->
  holds_mutex g = true ->
  (forall vanity, yaml io1 vanity = yaml io2 vanity) ->
  is_Some (exec host path s (Run i io1)) /\
  exec host path s (Run i io1) = exec host path s (Run i io2).
Proof.
  intros Hrun Hi Hh Hy. split.
  - apply (lock_holder_steps host path io1 s i g Hrun Hi Hh).
  - apply (lock_holder_step_world host path io1 io2 s i g Hi Hh Hy).
Qed.

Lemma X11_witness :
  exists s,
    execs "example.com" example.config_path initial trace2.before_decode = Some s /\
    running s = true /\
    pool s !! 2%nat
      = Some (GRefresh (Some (AtUnmarshal (list_byte_of_string example.foo_yaml)))) /\
    (forall vanity, yaml trace.w vanity = yaml trace2.unavailable vanity) /\
    is_Some (exec "example.com" example.config_path s (Run 2 trace.w)) /\
    exec "example.com" example.config_path s (Run 2 trace.w)
      = exec "example.com" example.config_path s (Run 2 trace2.unavailable).
Proof.
  eexists. split; [vm_compute; reflexivity|].
  match goal with
  | |- running ?s = true /\ pool ?s !! 2%nat = Some ?g /\ _ =>
      assert (H1 : running s = true) by (vm_compute; reflexivity);
      assert (H2 : pool s !! 2%nat = Some g) by (vm_compute; reflexivity)
  end.
  assert (H3 : forall vanity, yaml trace.w vanity = yaml trace2.unavailable vanity)
    by (intros vanity; reflexivity).
  split; [exact H1|]. split; [exact H2|]. split; [exact H3|].
  exact (X11_no_io_under_lock _ _ _ _ _ _ _ H1 H2 eq_refl H3).
Defined.

(** X12.  The process never deadlocks on [mutex]: in every state it can
    reach, when some goroutine is at [RLock] or [Lock], some goroutine
    that is at the mutex or holds it can take its next step, whatever the
    world does. *)
Theorem X12_no_deadlock (host path : string) (s : state) (i : nat) (g : goroutine) :
  reachable host path s ->
  running s = true ->
  pool s !! i = Some g ->
  at_mutex g = true ->
  exists j g',
    pool s !! j = Some g' /\
    (at_mutex g' = true \/ holds_mutex g' = true) /\
    forall io, is_Some (exec host path s (Run j io)).
Proof.
  intros Hreach Hrun Hi Hat.
  pose proof (reachable_Inv host path s Hreach) as [Hr Ha Hp He Hq Hg Hpool].
  destruct (writer (mutex s)) eqn:Hw.
  - (* no writer: the goroutine itself goes ahead *)
    exists i, g. split; [exact Hi|]. split; [left; exact Hat|].
    intros io. unfold exec, run. rewrite Hrun, Hi.
    destruct g as [pc|[pc|]|[pc|]|current pc]; simpl in Hat; try discriminate.
    + destruct pc; try discriminate.
      * unfold loop_step, load_step. rewrite Hw. eexists; reflexivity.
      * exfalso. pose proof (count_pos in_lockwait _ _ _ Hi eq_refl) as Hpos.
        rewrite Hp in Hpos. case_decide; [congruence|lia].
    + destruct pc; try discriminate.
      * unfold loop_step, load_step. rewrite Hw. eexists; reflexivity.
      * exfalso. pose proof (count_pos in_lockwait _ _ _ Hi eq_refl) as Hpos.
        rewrite Hp in Hpos. case_decide; [congruence|lia].
    + destruct pc; try discriminate. simpl. rewrite Hw. eexists; reflexivity.
  - (* a writer waits for the readers *)
    rewrite decide_True in Hp by reflexivity.
    destruct (readerCount (mutex s)) as [|n] eqn:Hrc.
    + destruct (count_exists in_lockwait (pool s)) as (j & g' & Hj & Hg'); [lia|].
      exists j, g'. split; [exact Hj|]. split.
      * left. unfold in_lockwait in Hg'. unfold at_mutex.
        destruct g' as [pc|[pc|]|[pc|]|c pc]; simpl in *; try discriminate;
          destruct pc; try discriminate; reflexivity.
      * intros io. unfold exec, run. rewrite Hrun, Hj.
        unfold in_lockwait in Hg'.
        destruct g' as [pc|[pc|]|[pc|]|c pc]; simpl in Hg'; try discriminate;
          destruct pc; try discriminate;
          unfold loop_step, load_step; rewrite Hrc; eexists; reflexivity.
    + destruct (count_exists in_read (pool s)) as (j & g' & Hj & Hg'); [lia|].
      exists j, g'. split; [exact Hj|].
      assert (Hh : holds_mutex g' = true)
        by (unfold holds_mutex; rewrite Hg'; apply orb_true_r).
      split; [right; exact Hh|].
      intros io. apply (lock_holder_steps host path io s j g' Hrun Hj Hh).
  - (* a writer holds the lock *)
    rewrite decide_True in Ha by reflexivity.
    destruct (count_exists in_critical (pool s)) as (j & g' & Hj & Hg'); [lia|].
    exists j, g'. split; [exact Hj|].
    assert (Hh : holds_mutex g' = true) by (unfold holds_mutex; rewrite Hg'; reflexivity).
    split; [right; exact Hh|].
    intros io. apply (lock_holder_steps host path io s j g' Hrun Hj Hh).
Qed.

Lemma X12_witness :
  exists s,
    execs "example.com" example.config_path initial trace2.reader_waits = Some s /\
    running s = true /\
    pool s !! 3%nat = Some (GHandle "/foo" AtRLock) /\
    exec "example.com" example.config_path s (Run 3 trace.w) = None /\
    exists j g',
      pool s !! j = Some g' /\
      (at_mutex g' = true \/ holds_mutex g' = true) /\
      forall io, is_Some (exec "example.com" example.config_path s (Run j io)).
Proof.
  eexists. split; [vm_compute; reflexivity|].
  match goal with
  | |- running ?s = true /\ pool ?s !! 3%nat = Some ?g /\ _ =>
      assert (Hr : reachable "example.com" example.config_path s)
        by (exists trace2.reader_waits; vm_compute; reflexivity);
      assert (H1 : running s = true) by (vm_compute; reflexivity);
      assert (H2 : pool s !! 3%nat = Some g) by (vm_compute; reflexivity)
  end.
  split; [exact H1|]. split; [exact H2|]. split; [vm_compute; reflexivity|].
  exact (X12_no_deadlock _ _ _ _ _ Hr H1 H2 eq_refl).
Defined.

(** A step of a goroutine other than [main] changes no other goroutine,
    and takes a signal out of [sigs] at most. *)
Lemma run_other_frame (host path : string) (io : World) (s s' : state) (i : nat)
    (g : goroutine) :
  pool s !! i = Some g -> kind g <> 0 ->
  run host path io s i = Some s' ->
  (forall j, j <> i -> pool s' !! j = pool s !! j) /\
  (sigs s' = sigs s \/ sigs s' = false).
Proof.
  intros Hi Hk Hrun.
  assert (Hset : forall g' m mu unl,
            (forall j, j <> i ->
                       pool (set_goroutine s i g' m mu unl) !! j = pool s !! j) /\
            (sigs (set_goroutine s i g' m mu unl) = sigs s \/
             sigs (set_goroutine s i g' m mu unl) = false)).
  { intros g' m mu unl. simpl. split; [|left; reflexivity].
    intros j Hj. apply list_lookup_insert_ne. congruence. }
  unfold run in Hrun. rewrite Hi in Hrun.
  destruct g as [pc|[pc|]|[pc|]|current pc]; try (exfalso; apply Hk; reflexivity).
  - unfold loop_step in Hrun.
    destruct pc; try (inversion Hrun; subst; apply Hset);
      match type of Hrun with
      | match ?x with _ => _ end = _ =>
          destruct x; inversion Hrun; subst;
          try apply Hset; split; [reflexivity|left; reflexivity]
      end.
  - destruct (sigs s); inversion Hrun; subst. simpl. split; [|right; reflexivity].
    intros j Hj. apply list_lookup_insert_ne. congruence.
  - unfold loop_step in Hrun.
    destruct pc; try (inversion Hrun; subst; apply Hset);
      match type of Hrun with
      | match ?x with _ => _ end = _ =>
          destruct x; inversion Hrun; subst;
          try apply Hset; split; [reflexivity|left; reflexivity]
      end.
  - inversion Hrun; subst. apply Hset.
  - destruct (handle_step host io current (m_now s) (mutex s) (unlocked s) pc);
      inversion Hrun; subst. apply Hset.
Qed.

Lemma execs_layout (host path : string) (evs : list event) (s s' : state) :
  layout s -> execs host path s evs = Some s' -> layout s'.
Proof.
  revert s. induction evs as [|ev evs IH]; intros s HL H; simpl in H.
  - inversion H; subst. exact HL.
  - destruct (exec host path s ev) as [s1|] eqn:E; [|discriminate].
    apply (IH s1); [|exact H]. eapply exec_layout; [exact HL|exact E].
Qed.

(** With an empty [-host], [main] does not get past its test of [host]. *)
Lemma empty_host_main (path : string) (s s' : state) (ev : event) :
  layout s ->
  (exists pc, pool s !! 0%nat = Some (GMain pc) /\
              (pc = AtParse \/ pc = AtRefreshWhenSig \/ pc = AtRefreshYaml \/
               pc = AtHostCheck)) ->
  exec "" path s ev = Some s' ->
  exists pc, pool s' !! 0%nat = Some (GMain pc) /\
             (pc = AtParse \/ pc = AtRefreshWhenSig \/ pc = AtRefreshYaml \/
              pc = AtHostCheck).
Proof.
  intros HL (pc & H0 & Hpc) Hexec.
  assert (Hlen : 0 < length (pool s)) by (eapply lookup_lt_Some; exact H0).
  destruct ev as [i io|current| |];
    [| |destruct (Sighup_cases _ _ _ _ Hexec)
          as (_ & [(_ & ->)|[(_ & _ & _ & ->)|(_ & ->)]])|];
    unfold exec in Hexec; (destruct (running s); [|discriminate]).
  - destruct (pool s !! i) as [g|] eqn:Hi;
      [|unfold run in Hexec; rewrite Hi in Hexec; discriminate].
    destruct (decide (kind g = 0)) as [Hk|Hk].
    + destruct g as [pc0| | |]; try discriminate.
      pose proof (layout_main _ _ _ HL Hi) as ->.
      rewrite H0 in Hi. inversion Hi; subst pc0.
      unfold run in Hexec. rewrite H0 in Hexec.
      destruct Hpc as [->|[->|[->| ->]]]; inversion Hexec; subst; simpl.
      * exists AtRefreshWhenSig. split; [apply list_lookup_insert_eq; exact Hlen|auto].
      * exists AtRefreshYaml. split; [|auto].
        rewrite lookup_app_l by (rewrite length_insert; exact Hlen).
        apply list_lookup_insert_eq; exact Hlen.
      * exists AtHostCheck. split; [|auto 6].
        rewrite lookup_app_l by (rewrite length_insert; exact Hlen).
        apply list_lookup_insert_eq; exact Hlen.
      * exists AtHostCheck. split; [exact H0|auto 6].
    + destruct (run_other "" path io s s' i g Hi Hk Hexec) as [_ H0'].
      exists pc. split; [apply H0'; exact H0|exact Hpc].
  - unfold serving in Hexec. rewrite H0 in Hexec.
    destruct Hpc as [->|[->|[->| ->]]]; discriminate.
  - exists pc. split; assumption.
  - exists pc. simpl. split; [|exact Hpc].
    rewrite list_lookup_insert_ne by discriminate. exact H0.
  - exists pc. split; assumption.
  - unfold listening in Hexec. rewrite H0 in Hexec.
    destruct Hpc as [->|[->|[->| ->]]]; discriminate.
Qed.

(** X13.  Started without [-host], the process never serves: in no state
    it can reach does the server accept connections, and no call of
    [handle] ever exists (the two refreshing goroutines are started all
    the same, before the test). *)
Theorem X13_no_host_never_serves (path : string) (s : state) :
  reachable "" path s ->
  serving s = false /\
  forall i g, pool s !! i = Some g -> kind g <> 3.
Proof.
  intros [evs Hevs].
  assert (HL : layout s) by (apply (reachable_layout "" path); exists evs; exact Hevs).
  assert (Hmain : exists pc, pool s !! 0%nat = Some (GMain pc) /\
                    (pc = AtParse \/ pc = AtRefreshWhenSig \/ pc = AtRefreshYaml \/
                     pc = AtHostCheck)).
  { revert Hevs. generalize layout_initial.
    assert (H0 : exists pc, pool initial !! 0%nat = Some (GMain pc) /\
                   (pc = AtParse \/ pc = AtRefreshWhenSig \/ pc = AtRefreshYaml \/
                    pc = AtHostCheck))
      by (exists AtParse; split; [reflexivity|auto]).
    revert H0. generalize initial as s0.
    induction evs as [|ev evs IH]; intros s0 H0 HL0 H; simpl in H.
    - inversion H; subst. exact H0.
    - destruct (exec "" path s0 ev) as [s1|] eqn:E; [|discriminate].
      apply (IH s1); [| |exact H].
      + eapply empty_host_main; [exact HL0|exact H0|exact E].
      + eapply exec_layout; [exact HL0|exact E]. }
  destruct Hmain as (pc & H0 & Hpc).
  destruct HL as (pc' & H0' & Hshape). rewrite H0 in H0'. inversion H0'; subst pc'.
  split.
  - unfold serving. rewrite H0. destruct Hpc as [->|[->|[->| ->]]]; reflexivity.
  - intros i g Hi Hk.
    assert (Hki : map kind (pool s) !! i = Some 3)
      by (rewrite list_lookup_fmap, Hi; simpl; rewrite Hk; reflexivity).
    destruct Hpc as [->|[->|[->| ->]]]; rewrite Hshape in Hki;
      destruct i as [|[|[|i]]]; discriminate.
Qed.

Lemma X13_witness :
  exists s,
    execs "" example.config_path initial trace2.no_host = Some s /\
    running s = false /\
    serving s = false /\
    forall i g, pool s !! i = Some g -> kind g <> 3.
Proof.
  eexists. split; [vm_compute; reflexivity|].
  split; [vm_compute; reflexivity|].
  apply (X13_no_host_never_serves example.config_path).
  exists trace2.no_host. vm_compute. reflexivity.
Defined.

(** Without a signal, the goroutine of [refreshWhenSig] stays in its
    receive. *)
Lemma quiet_step (host path : string) (s s' : state) (ev : event) :
  layout s ->
  sigs s = false ->
  (forall g, pool s !! 1%nat = Some g -> g = GSignal None) ->
  is_sighup ev = false ->
  exec host path s ev = Some s' ->
  sigs s' = false /\ forall g, pool s' !! 1%nat = Some g -> g = GSignal None.
Proof.
  intros HL Hsig H1 Hev Hexec. unfold exec in Hexec.
  destruct (running s); [|discriminate].
  destruct ev as [i io|current| |]; try discriminate.
  - destruct (pool s !! i) as [g|] eqn:Hi;
      [|unfold run in Hexec; rewrite Hi in Hexec; discriminate].
    destruct (decide (kind g = 0)) as [Hk|Hk].
    + destruct g as [pc0| | |]; try discriminate.
      pose proof (layout_main _ _ _ HL Hi) as ->.
      destruct HL as (pc & H0 & Hshape).
      rewrite H0 in Hi. inversion Hi; subst pc0.
      assert (Hlen : length (pool s) = length (map kind (pool s)))
        by (rewrite length_map; reflexivity).
      unfold run in Hexec. rewrite H0 in Hexec.
      destruct pc; try discriminate.
      * inversion Hexec; subst. simpl. split; [exact Hsig|].
        intros g Hg. rewrite list_lookup_insert_ne in Hg by lia. exact (H1 _ Hg).
      * inversion Hexec; subst. simpl. split; [exact Hsig|].
        rewrite Hshape in Hlen. simpl in Hlen.
        intros g Hg. rewrite lookup_app_r in Hg by (rewrite length_insert; lia).
        rewrite length_insert, Hlen in Hg. simpl in Hg. congruence.
      * inversion Hexec; subst. simpl. split; [exact Hsig|].
        rewrite Hshape in Hlen. simpl in Hlen.
        intros g Hg. rewrite lookup_app_l in Hg by (rewrite length_insert; lia).
        rewrite list_lookup_insert_ne in Hg by lia. exact (H1 _ Hg).
      * destruct (String.eqb host ""); inversion Hexec; subst; simpl.
        -- split; assumption.
        -- split; [exact Hsig|].
           intros g Hg. rewrite list_lookup_insert_ne in Hg by lia. exact (H1 _ Hg).
      * inversion Hexec; subst. simpl. split; [exact Hsig|].
        intros g Hg. rewrite list_lookup_insert_ne in Hg by lia. exact (H1 _ Hg).
      * inversion Hexec; subst. simpl. split; [exact Hsig|].
        intros g Hg. rewrite list_lookup_insert_ne in Hg by lia. exact (H1 _ Hg).
    + destruct (decide (i = 1)) as [->|Hne].
      * rewrite (H1 _ Hi) in Hi. unfold run in Hexec.
        rewrite Hi, Hsig in Hexec. discriminate.
      * destruct (run_other_frame host path io s s' i g Hi Hk Hexec) as [Hp Hs].
        split; [destruct Hs as [Hs|Hs]; congruence|].
        intros g' Hg'. rewrite Hp in Hg' by congruence. exact (H1 _ Hg').
  - unfold serving in Hexec.
    destruct (pool s !! 0) as [[[]| | |]|] eqn:H0; inversion Hexec; subst.
    simpl. split; [exact Hsig|].
    destruct HL as (pc & H0' & Hshape). rewrite H0 in H0'. inversion H0'; subst pc.
    destruct Hshape as [n Hshape].
    assert (Hlen : length (pool s) = length (map kind (pool s)))
      by (rewrite length_map; reflexivity).
    rewrite Hshape in Hlen. simpl in Hlen.
    intros g Hg. rewrite lookup_app_l in Hg by lia. exact (H1 _ Hg).
  - destruct (listening s); inversion Hexec; subst. simpl. split; assumption.
Qed.

(** X14.  As long as the process is sent no SIGHUP, the goroutine started
    by [refreshWhenSig] never calls [loadYaml]: it stays in [s := <-sigs],
    and [sigs] stays empty. *)
Theorem X14_no_reload_without_signal (host path : string) (evs : list event)
    (s : state) :
  execs host path initial evs = Some s ->
  forallb (fun ev => negb (is_sighup ev)) evs = true ->
  sigs s = false /\
  forall g, pool s !! 1%nat = Some g -> g = GSignal None.
Proof.
  assert (H0 : sigs initial = false /\
               forall g, pool initial !! 1%nat = Some g -> g = GSignal None)
    by (split; [reflexivity|intros g Hg; discriminate]).
  revert H0. generalize layout_initial. generalize initial as s0.
  induction evs as [|ev evs IH]; intros s0 HL [Hsig H1] Hexec Hq; simpl in *.
  - inversion Hexec; subst. split; assumption.
  - apply andb_true_iff in Hq as [Hev Hq]. apply negb_true_iff in Hev.
    destruct (exec host path s0 ev) as [s1|] eqn:E; [|discriminate].
    apply (IH s1); [| |exact Hexec|exact Hq].
    + eapply exec_layout; [exact HL|exact E].
    + eapply quiet_step; [exact HL|exact Hsig|exact H1|exact Hev|exact E].
Qed.

Lemma X14_witness :
  exists s,
    execs "example.com" example.config_path initial trace.served_after_load = Some s /\
    forallb (fun ev => negb (is_sighup ev)) trace.served_after_load = true /\
    (sigs s = false /\
     forall g, pool s !! 1%nat = Some g -> g = GSignal None).
Proof.
  eexists. split; [vm_compute; reflexivity|].
  match goal with
  | |- _ /\ (sigs ?s = false /\ _) =>
      assert (He : execs "example.com" example.config_path initial
                     trace.served_after_load = Some s)
        by (vm_compute; reflexivity)
  end.
  assert (Hq : forallb (fun ev => negb (is_sighup ev)) trace.served_after_load = true)
    by reflexivity.
  split; [exact Hq|].
  exact (X14_no_reload_without_signal _ _ _ _ He Hq).
Defined.

(** A step either leaves [notified] and the number of goroutines as they
    are, or starts a goroutine beside the two loops, or is [main]'s call
    of [refreshWhenSig], which starts the second goroutine. *)
Lemma notified_step (host path : string) (s s' : state) (ev : event) :
  layout s ->
  exec host path s ev = Some s' ->
  (notified s' = notified s /\
   (length (pool s') = length (pool s) \/
    2 <= length (pool s) /\ length (pool s') = S (length (pool s)))) \/
  (length (pool s) = 1 /\ length (pool s') = 2 /\ notified s' = true).
Proof.
  intros HL Hexec.
  assert (Hlen : length (map kind (pool s)) = length (pool s)) by apply length_map.
  destruct ev as [i io|current| |];
    [| |destruct (Sighup_cases _ _ _ _ Hexec)
          as (_ & [(_ & ->)|[(_ & _ & _ & ->)|(_ & ->)]])|];
    unfold exec in Hexec; (destruct (running s); [|discriminate]).
  - unfold run in Hexec.
    destruct (pool s !! i) as [[pc|[pc|]|[pc|]|current pc]|] eqn:Hi; try discriminate.
    + pose proof (layout_main _ _ _ HL Hi) as ->.
      destruct HL as (pc0 & H0 & Hshape).
      rewrite H0 in Hi. inversion Hi; subst pc0.
      destruct pc; try discriminate.
      * inversion Hexec; subst; simpl. rewrite length_insert.
        left. split; [reflexivity|left; reflexivity].
      * inversion Hexec; subst; simpl. rewrite length_app, length_insert. simpl.
        right. rewrite Hshape in Hlen. simpl in Hlen. rewrite <- Hlen.
        split_ands; reflexivity.
      * inversion Hexec; subst; simpl. rewrite length_app, length_insert. simpl.
        left. split; [reflexivity|]. right.
        rewrite Hshape in Hlen. simpl in Hlen. rewrite <- Hlen. split; lia.
      * destruct (String.eqb host ""); inversion Hexec; subst; simpl;
          rewrite ?length_insert; left; (split; [reflexivity|left; reflexivity]).
      * inversion Hexec; subst; simpl. rewrite length_insert.
        left. split; [reflexivity|left; reflexivity].
      * inversion Hexec; subst; simpl. rewrite length_insert.
        left. split; [reflexivity|left; reflexivity].
    + unfold loop_step in Hexec.
      destruct pc; try (inversion Hexec; subst; simpl; rewrite ?length_insert;
                        left; (split; [reflexivity|left; reflexivity]));
        match type of Hexec with
        | match ?x with _ => _ end = _ =>
            destruct x; inversion Hexec; subst; simpl; rewrite ?length_insert;
            left; (split; [reflexivity|left; reflexivity])
        end.
    + destruct (sigs s); inversion Hexec; subst; simpl; rewrite length_insert.
      left. split; [reflexivity|left; reflexivity].
    + unfold loop_step in Hexec.
      destruct pc; try (inversion Hexec; subst; simpl; rewrite ?length_insert;
                        left; (split; [reflexivity|left; reflexivity]));
        match type of Hexec with
        | match ?x with _ => _ end = _ =>
            destruct x; inversion Hexec; subst; simpl; rewrite ?length_insert;
            left; (split; [reflexivity|left; reflexivity])
        end.
    + inversion Hexec; subst; simpl; rewrite length_insert.
      left. split; [reflexivity|left; reflexivity].
    + destruct (handle_step host io current (m_now s) (mutex s) (unlocked s) pc);
        inversion Hexec; subst; simpl; rewrite length_insert.
      left. split; [reflexivity|left; reflexivity].
  - unfold serving in Hexec.
    destruct (pool s !! 0) as [[[]| | |]|] eqn:H0; inversion Hexec; subst.
    destruct HL as (pc & H0' & Hshape). rewrite H0 in H0'. inversion H0'; subst pc.
    destruct Hshape as [n Hshape]. rewrite Hshape in Hlen. simpl in Hlen.
    left. split; [reflexivity|]. right. simpl. rewrite length_app. simpl. split; lia.
  - left. split; [reflexivity|left; reflexivity].
  - left. simpl. rewrite length_insert. split; [reflexivity|left; reflexivity].
  - left. split; [reflexivity|left; reflexivity].
  - destruct (listening s); inversion Hexec; subst.
    left. split; [reflexivity|left; reflexivity].
Qed.

(** SIGHUP is notified exactly when the goroutine of [refreshWhenSig]
    exists. *)
Lemma notified_second_goroutine (host path : string) (s : state) :
  reachable host path s ->
  notified s = match pool s !! 1%nat with Some _ => true | None => false end.
Proof.
  assert (Hl : forall p : list goroutine,
            match p !! 1%nat with Some _ => true | None => false end
            = (1 <? length p)%nat).
  { intros [|x [|y p]]; reflexivity. }
  intros [evs H]. rewrite Hl. revert H.
  assert (H0 : notified initial = (1 <? length (pool initial))%nat) by reflexivity.
  revert H0. generalize layout_initial. generalize initial as s0.
  induction evs as [|ev evs IH]; intros s0 HL H0 H; simpl in H.
  - inversion H; subst. exact H0.
  - destruct (exec host path s0 ev) as [s1|] eqn:E; [|discriminate].
    apply (IH s1); [eapply exec_layout; [exact HL|exact E]| |exact H].
    destruct (notified_step _ _ _ _ _ HL E) as [(Hn & [Hp|[Hp1 Hp2]])|(Hp1 & Hp2 & Hn)].
    + rewrite Hn, Hp. exact H0.
    + rewrite Hn, Hp2, H0.
      destruct (Nat.ltb_spec 1 (length (pool s0))),
               (Nat.ltb_spec 1 (S (length (pool s0)))); try reflexivity; lia.
    + rewrite Hn, Hp2. reflexivity.
Qed.

(** X15.  SIGHUP ends the process as long as [main] has not called
    [refreshWhenSig], that is, as long as the second goroutine does not
    exist.  From then on SIGHUP never ends the process and never changes
    [m], and a reload is ahead once it has arrived: the goroutine of
    [refreshWhenSig] has been handed the signal and is at the start of
    [loadYaml], or a signal waits in [sigs]. *)
Theorem X15_sighup_before_and_after_notify (host path : string) (s : state) :
  reachable host path s ->
  running s = true ->
  exists s',
    exec host path s Sighup = Some s' /\
    match pool s !! 1%nat with
    | None => running s' = false
    | Some _ =>
        running s' = true /\ m_now s' = m_now s /\
        (sigs s' = true \/ pool s' !! 1%nat = Some (GSignal (Some AtReadFile)))
    end.
Proof.
  intros Hreach Hrun.
  pose proof (notified_second_goroutine _ _ _ Hreach) as Hn.
  unfold exec. rewrite Hrun.
  destruct (pool s !! 1%nat) as [g|] eqn:H1; rewrite Hn.
  - destruct (sigs s) eqn:Hs.
    + eexists. split; [reflexivity|]. simpl. split_ands; auto.
    + destruct g as [pc|[pc|]|pc|c pc];
        eexists; (split; [reflexivity|]); simpl; split_ands; auto.
      right. apply list_lookup_insert_eq. eapply lookup_lt_Some. exact H1.
  - eexists. split; [reflexivity|]. reflexivity.
Qed.

Lemma X15_witness :
  exists s,
    execs "example.com" example.config_path initial trace2.loops_started = Some s /\
    running s = true /\
    pool s !! 1%nat = Some (GSignal None) /\
    exists s',
      exec "example.com" example.config_path s Sighup = Some s' /\
      match pool s !! 1%nat with
      | None => running s' = false
      | Some _ =>
          running s' = true /\ m_now s' = m_now s /\
          (sigs s' = true \/ pool s' !! 1%nat = Some (GSignal (Some AtReadFile)))
      end.
Proof.
  eexists. split; [vm_compute; reflexivity|].
  match goal with
  | |- running ?s = true /\ _ =>
      assert (H1 : running s = true) by (vm_compute; reflexivity);
      assert (H2 : reachable "example.com" example.config_path s)
        by (exists trace2.loops_started; vm_compute; reflexivity)
  end.
  split; [exact H1|]. split; [vm_compute; reflexivity|].
  exact (X15_sighup_before_and_after_notify _ _ _ H2 H1).
Defined.

(** X16.  A call of [loadYaml] that runs its steps without interference,
    from a free mutex, ends in finitely many steps exactly as the function
    [loadYaml] says: it crashes the process where that panics, and
    otherwise leaves the same [m], returns the same error, has released
    the mutex, and has recorded one [Unlock] if and only if [readFile]
    succeeded. *)
Theorem X16_loadYaml_steps_agree (path : string) (io : World) (m : Store)
    (unl : list Store) :
  exists fuel,
    load_run path fuel io m (mkMutex WFree 0) unl AtReadFile =
    match loadYaml path io m with
    | Panics => Crash
    | Returns (m', err) =>
        Next m' (mkMutex WFree 0)
             (match readFile path io with
              | Returns (_, None) => m' :: unl
              | _ => unl
              end)
             (Returned err)
    end.
Proof. apply load_run_loadYaml. Qed.

Lemma lookup_updated (l tl : list goroutine) (i j : nat) (g' x : goroutine) :
  (<[i := g']> l ++ tl) !! j = Some x ->
  x = g' \/ l !! j = Some x \/ x ∈ tl.
Proof.
  intros H. apply lookup_app_Some in H as [H|[_ H]].
  - apply list_lookup_insert_Some in H as [(_ & -> & _)|[_ H]]; auto.
  - right. right. eapply list_elem_of_lookup_2. exact H.
Qed.

(** With a locator that begins with [http], no call of [loadYaml] gets
    past [readFile]. *)
Lemma http_step (host path : string) (s s' : state) (ev : event) :
  readFile_route path = ViaHTTP ->
  m_now s = None -> unlocked s = [] ->
  (forall i g pc, pool s !! i = Some g -> loader_pc g = Some pc ->
                  pc = AtReadFile \/ exists err, pc = Returned err) ->
  exec host path s ev = Some s' ->
  m_now s' = None /\ unlocked s' = [] /\
  (forall i g pc, pool s' !! i = Some g -> loader_pc g = Some pc ->
                  pc = AtReadFile \/ exists err, pc = Returned err).
Proof.
  intros Hroute Hm Hu Hpcs Hexec.
  assert (Hupd : forall i g' tl sg nt rn,
            (forall pc, loader_pc g' = Some pc ->
                        pc = AtReadFile \/ exists err, pc = Returned err) ->
            (forall x, x ∈ tl -> forall pc, loader_pc x = Some pc ->
                        pc = AtReadFile \/ exists err, pc = Returned err) ->
            s' = mkState (m_now s) (mutex s) (<[i := g']> (pool s) ++ tl) sg nt rn
                         (unlocked s) ->
            m_now s' = None /\ unlocked s' = [] /\
            (forall i g pc, pool s' !! i = Some g -> loader_pc g = Some pc ->
                            pc = AtReadFile \/ exists err, pc = Returned err)).
  { intros i g' tl sg nt rn Hg' Htl ->. simpl. split; [exact Hm|]. split; [exact Hu|].
    intros j x pc Hj Hpc. destruct (lookup_updated _ _ _ _ _ _ Hj) as [->|[Hx|Hx]].
    - apply Hg'. exact Hpc.
    - apply (Hpcs _ _ _ Hx Hpc).
    - apply (Htl _ Hx _ Hpc). }
  assert (Hgoto : forall i g',
            (forall pc, loader_pc g' = Some pc ->
                        pc = AtReadFile \/ exists err, pc = Returned err) ->
            s' = goto s i g' ->
            m_now s' = None /\ unlocked s' = [] /\
            (forall i g pc, pool s' !! i = Some g -> loader_pc g = Some pc ->
                            pc = AtReadFile \/ exists err, pc = Returned err)).
  { intros i g' Hg' ->. apply (Hupd i g' [] (sigs s) (notified s) (running s) Hg').
    - intros x Hx. inversion Hx.
    - unfold goto, set_goroutine. rewrite app_nil_r. reflexivity. }
  assert (Hsame : pool s' = pool s -> m_now s' = m_now s -> unlocked s' = unlocked s ->
            m_now s' = None /\ unlocked s' = [] /\
            (forall i g pc, pool s' !! i = Some g -> loader_pc g = Some pc ->
                            pc = AtReadFile \/ exists err, pc = Returned err)).
  { intros Hp Hm' Hu'. rewrite Hp, Hm', Hu'. split_ands; assumption. }
  assert (Hloop : forall i io wrap pc,
            wrap = GSignal \/ wrap = GRefresh ->
            pool s !! i = Some (wrap (Some pc)) ->
            loop_step path io s i wrap pc = Some s' ->
            m_now s' = None /\ unlocked s' = [] /\
            (forall i g pc, pool s' !! i = Some g -> loader_pc g = Some pc ->
                            pc = AtReadFile \/ exists err, pc = Returned err)).
  { intros i io wrap pc Hwrap Hi Hstep.
    assert (Hw : forall o, loader_pc (wrap o) = o)
      by (destruct Hwrap as [-> | ->]; reflexivity).
    destruct (Hpcs _ _ _ Hi (Hw _)) as [->|[err ->]]; unfold loop_step in Hstep.
    - simpl in Hstep. unfold readFile in Hstep. rewrite Hroute in Hstep.
      destruct (loadHTTPFile path io) as [[v [err|]]|] eqn:Hl.
      + inversion Hstep; subst. apply (Hgoto i (wrap (Some (Returned (Some err))))).
        * intros pc Hpc. rewrite Hw in Hpc. inversion Hpc; subst. right. eexists; reflexivity.
        * reflexivity.
      + exfalso. apply (loadHTTPFile_returns _ _ _ _ Hl). reflexivity.
      + inversion Hstep; subst. apply Hsame; reflexivity.
    - inversion Hstep; subst. apply (Hgoto i (wrap None)).
      + intros pc Hpc. rewrite Hw in Hpc. discriminate.
      + reflexivity. }
  destruct ev as [i io|current| |];
    [| |destruct (Sighup_cases _ _ _ _ Hexec)
          as (_ & [(_ & Hs')|[(_ & _ & _ & Hs')|(_ & Hs')]])|];
    unfold exec in Hexec; (destruct (running s); [|discriminate]).
  - unfold run in Hexec.
    destruct (pool s !! i) as [[pc|[pc|]|[pc|]|current pc]|] eqn:Hi; try discriminate.
    + destruct pc; try discriminate.
      * inversion Hexec; subst. apply (Hgoto i (GMain AtRefreshWhenSig)); [|reflexivity].
        intros pc Hpc. discriminate.
      * inversion Hexec; subst.
        apply (Hupd i (GMain AtRefreshYaml) [GSignal None] (sigs s) true (running s));
          [| |reflexivity].
        -- intros pc Hpc. discriminate.
        -- intros x Hx pc Hpc. apply list_elem_of_singleton in Hx as ->. discriminate.
      * inversion Hexec; subst.
        apply (Hupd i (GMain AtHostCheck) [GRefresh (Some AtReadFile)]
                 (sigs s) (notified s) (running s)); [| |reflexivity].
        -- intros pc Hpc. discriminate.
        -- intros x Hx pc Hpc. apply list_elem_of_singleton in Hx as ->.
           inversion Hpc; subst. left. reflexivity.
      * destruct (String.eqb host ""); inversion Hexec; subst.
        -- apply Hsame; reflexivity.
        -- apply (Hgoto i (GMain AtHandle)); [|reflexivity].
           intros pc Hpc. discriminate.
      * inversion Hexec; subst. apply (Hgoto i (GMain AtListen)); [|reflexivity].
        intros pc Hpc. discriminate.
      * inversion Hexec; subst. apply (Hgoto i (GMain Serving)); [|reflexivity].
        intros pc Hpc. discriminate.
    + apply (Hloop i io GSignal pc); [left; reflexivity|exact Hi|exact Hexec].
    + destruct (sigs s); inversion Hexec; subst.
      apply (Hupd i (GSignal (Some AtReadFile)) [] false (notified s) (running s)).
      * intros pc Hpc. inversion Hpc; subst. left. reflexivity.
      * intros x Hx. inversion Hx.
      * rewrite app_nil_r. reflexivity.
    + apply (Hloop i io GRefresh pc); [right; reflexivity|exact Hi|exact Hexec].
    + inversion Hexec; subst. apply (Hgoto i (GRefresh (Some AtReadFile))); [|reflexivity].
      intros pc Hpc. inversion Hpc; subst. left. reflexivity.
    + destruct (handle_step host io current (m_now s) (mutex s) (unlocked s) pc)
        as [| |m1 mu1 unl1 pc1] eqn:Hh; inversion Hexec; subst.
      assert (Hm1 : m1 = m_now s) by (apply (handle_step_reads _ _ _ _ _ _ _ _ _ _ _ Hh)).
      assert (Hu1 : unl1 = unlocked s).
      { destruct pc; simpl in Hh; try (inversion Hh; subst; reflexivity).
        destruct (writer (mutex s)); inversion Hh; subst; reflexivity. }
      subst m1 unl1. simpl. split; [exact Hm|]. split; [exact Hu|].
      intros j x pc0 Hj Hpc0.
      apply list_lookup_insert_Some in Hj as [(_ & <- & _)|[_ Hj]]; [discriminate|].
      apply (Hpcs _ _ _ Hj Hpc0).
  - destruct (serving s); inversion Hexec; subst. simpl.
    split; [exact Hm|]. split; [exact Hu|].
    intros j x pc Hj Hpc. apply lookup_app_Some in Hj as [Hj|[_ Hj]].
    + apply (Hpcs _ _ _ Hj Hpc).
    + apply list_lookup_singleton_Some in Hj as [_ <-]. discriminate.
  - subst s'. apply Hsame; reflexivity.
  - apply (Hgoto 1 (GSignal (Some AtReadFile))); [|exact Hs'].
    intros pc Hpc. inversion Hpc; subst. left. reflexivity.
  - subst s'. apply Hsame; reflexivity.
  - destruct (listening s); inversion Hexec; subst. apply Hsame; reflexivity.
Qed.

(** X17.  A process whose [-config] begins with [http] never has a
    mapping: in every state it can reach [m] is still nil, no reload has
    got as far as [mutex.Lock()], and every request that has been answered
    was answered with 404. *)
Theorem X17_http_config_serves_nothing (host path : string) (s : state) :
  readFile_route path = ViaHTTP ->
  reachable host path s ->
  m_now s = None /\
  (forall i g pc, pool s !! i = Some g -> loader_pc g = Some pc ->
                  pc = AtReadFile \/ exists err, pc = Returned err) /\
  (forall i current p w,
     pool s !! i = Some (GHandle current (Responded p w)) -> status w = 404%Z).
Proof.
  intros Hroute Hreach.
  pose proof (reachable_Inv host path s Hreach) as [_ _ _ _ _ _ Hpool].
  destruct Hreach as [evs Hevs].
  assert (H : m_now s = None /\ unlocked s = [] /\
              (forall i g pc, pool s !! i = Some g -> loader_pc g = Some pc ->
                              pc = AtReadFile \/ exists err, pc = Returned err)).
  { revert Hevs.
    assert (H0 : m_now initial = None /\ unlocked initial = [] /\
                 (forall i g pc, pool initial !! i = Some g -> loader_pc g = Some pc ->
                                 pc = AtReadFile \/ exists err, pc = Returned err)).
    { split; [reflexivity|]. split; [reflexivity|].
      intros [|i] g pc Hi Hpc; simpl in Hi; [|discriminate].
      inversion Hi; subst. discriminate. }
    revert H0. generalize initial as s0.
    induction evs as [|ev evs IH]; intros s0 (Hm & Hu & Hp) H; simpl in H.
    - inversion H; subst. split_ands; assumption.
    - destruct (exec host path s0 ev) as [s1|] eqn:E; [|discriminate].
      apply (IH s1); [|exact H].
      apply (http_step host path s0 s1 ev Hroute Hm Hu Hp E). }
  destruct H as (Hm & Hu & Hp).
  split; [exact Hm|]. split; [exact Hp|].
  intros i current p w Hi.
  destruct (Hpool _ _ Hi) as (_ & H2 & H3).
  destruct (H2 _ _ _ eq_refl eq_refl) as (g & Hin & ->).
  rewrite Hu in Hin. apply list_elem_of_singleton in Hin as ->.
  destruct (H3 _ _ _ eq_refl) as [io ->].
  change (index None current) with (@None Entry).
  rewrite respond_miss. reflexivity.
Qed.

Lemma X17_witness :
  exists s,
    execs "example.com" example.config_url initial trace2.http_served = Some s /\
    readFile_route example.config_url = ViaHTTP /\
    pool s !! 3%nat
      = Some (GHandle "/foo" (Responded None
          (mkResponse (Some 404%Z) [("404 page not found" ++ example.nl)%string]
                      false None))) /\
    (m_now s = None /\
     (forall i g pc, pool s !! i = Some g -> loader_pc g = Some pc ->
                     pc = AtReadFile \/ exists err, pc = Returned err) /\
     (forall i current p w,
        pool s !! i = Some (GHandle current (Responded p w)) -> status w = 404%Z)).
Proof.
  eexists. split; [vm_compute; reflexivity|].
  assert (Hroute : readFile_route example.config_url = ViaHTTP)
    by (vm_compute; reflexivity).
  split; [exact Hroute|]. split; [vm_compute; reflexivity|].
  apply (X17_http_config_serves_nothing "example.com" example.config_url _ Hroute).
  exists trace2.http_served. vm_compute. reflexivity.
Defined.
